(** * wiki-bubbles: the graph store of [App.tsx], the simulator hand-over of
    [ForceGraph.tsx] and the batch translation of [wikiService.ts].

    The React state [graphData] is a pair of arrays; every handler replaces it
    by a new pair computed from the previous one.  The state updates are
    embedded as pure functions on that pair, the answer of the Wikipedia API
    being an argument; the handlers are embedded in two parts where they
    [await] the provider, so that other handlers can run in between. *)

From Stdlib Require Import QArith Qminmax Lqa Ascii.
From stdpp Require Import gmap strings list.

Open Scope string_scope.
Open Scope list_scope.
Open Scope nat_scope.

(** ** Data model ([types.ts]) *)

(** A JavaScript [number]; the store only copies and compares them, the
    physics constants are computed in exact rational arithmetic. *)
Definition number : Type := Q.

(** [GraphNode extends d3.SimulationNodeDatum]: every field except [id] is
    optional; [None] stands for [undefined] (and for [null] in [fx], [fy]).
    [types.ts] declares [id] a string, and [I] is [string] wherever a
    graph is read; only what [toggleLang] computes is kept at a wider [I],
    because there a value that is no string can come to stand as an id. *)
Record GraphNode_ (I : Type) : Type := mkGraphNode {
  id : I;
  group : option number;
  val : option number;
  index : option nat;
  x : option number;
  y : option number;
  vx : option number;
  vy : option number;
  fx : option number;
  fy : option number
}.

Arguments mkGraphNode {I} _ _ _ _ _ _ _ _ _ _.
Arguments id {I} _.
Arguments group {I} _.
Arguments val {I} _.
Arguments index {I} _.
Arguments x {I} _.
Arguments y {I} _.
Arguments vx {I} _.
Arguments vy {I} _.
Arguments fx {I} _.
Arguments fy {I} _.

Abbreviation GraphNode := (GraphNode_ string).

(** The object literal [{ id, val }]. *)
Definition node_lit (i : string) (v : number) : GraphNode :=
  mkGraphNode i None (Some v) None None None None None None None.

(** [source: string | GraphNode]. *)
Inductive Endpoint_ (I : Type) : Type :=
| EString (s : I)
| ENode (n : GraphNode_ I).

Arguments EString {I} _.
Arguments ENode {I} _.

Abbreviation Endpoint := (Endpoint_ string).

Record GraphLink_ (I : Type) : Type := mkGraphLink {
  source : Endpoint_ I;
  target : Endpoint_ I
}.

Arguments mkGraphLink {I} _ _.
Arguments source {I} _.
Arguments target {I} _.

Abbreviation GraphLink := (GraphLink_ string).

Record GraphData_ (I : Type) : Type := mkGraphData {
  nodes : list (GraphNode_ I);
  links : list (GraphLink_ I)
}.

Arguments mkGraphData {I} _ _.
Arguments nodes {I} _.
Arguments links {I} _.

Abbreviation GraphData := (GraphData_ string).

(** [const getId = (n: string | GraphNode) => (typeof n === 'string' ? n : n.id)] *)
Definition getId {I : Type} (n : Endpoint_ I) : I :=
  match n with
  | EString s => s
  | ENode n => id n
  end.

(** The object literal [{ source: s, target: t }] on two ids. *)
Definition link_lit {I : Type} (s t : I) : GraphLink_ I :=
  mkGraphLink (EString s) (EString t).

(** The ordered pair of ids a link stands for. *)
Definition link_pair {I : Type} (l : GraphLink_ I) : I * I :=
  (getId (source l), getId (target l)).

Definition node_ids {I : Type} (g : GraphData_ I) : list I := fmap id (nodes g).
Definition link_pairs {I : Type} (g : GraphData_ I) : list (I * I) :=
  fmap link_pair (links g).

(** [useState<GraphData>({ nodes: [], links: [] })], also what [reset] sets. *)
Definition empty_graph : GraphData := mkGraphData [] [].

(** ** seed: the state update of [loadGraphData] *)

(** [links] is the answer of [getArticleLinks(title, language)]. *)
Definition loadGraphData (title : string) (links : list string) : GraphData :=
  let newNodes := node_lit title 2%Q :: fmap (fun link => node_lit link 1%Q) links in
  let newLinks := fmap (fun link => link_lit title link) links in
  mkGraphData newNodes newLinks.

(** ** expand: the state update of [handleExpandNode] *)

(** A template literal prints a string as it is and an object as
    [[object Object]]. *)
Definition template (e : Endpoint) : string :=
  match e with
  | EString s => s
  | ENode _ => "[object Object]"
  end.

(** The key [`${s}-${t}`] under which a link is remembered. *)
Definition link_key (s t : string) : string := (s ++ "-" ++ t)%string.

(** [l.target as string]: the cast changes nothing at run time, so a strict
    comparison with a string, or a lookup in a set of strings, can only
    succeed when the endpoint is a string. *)
Definition as_string (e : Endpoint) : option string :=
  match e with
  | EString s => Some s
  | ENode _ => None
  end.

Definition set_has (X : gset string) (e : Endpoint) : Prop :=
  match as_string e with
  | Some s => s ∈ X
  | None => False
  end.

#[global] Instance set_has_dec X e : Decision (set_has X e).
Proof. unfold set_has. destruct (as_string e); apply _. Defined.

Definition existingNodeIds (prevData : GraphData) : gset string :=
  list_to_set (fmap id (nodes prevData)).

Definition existingLinkKeys (prevData : GraphData) : gset string :=
  list_to_set
    (fmap (fun l => link_key (getId (source l)) (getId (target l)))
       (links prevData)).

Definition nodesToAdd (prevData : GraphData) (newLinksData : list string)
  : list GraphNode :=
  fmap (fun i => node_lit i 1%Q)
    (filter (fun i => i ∉ existingNodeIds prevData) newLinksData).

Definition linksToAdd (prevData : GraphData) (selectedId : string)
    (newLinksData : list string) : list GraphLink :=
  filter
    (fun l => link_key (template (source l)) (template (target l))
              ∉ existingLinkKeys prevData)
    (fmap (fun targetId => link_lit selectedId targetId) newLinksData).

Definition safeLinksToAdd (prevData : GraphData) (selectedId : string)
    (newLinksData : list string) : list GraphLink :=
  let safeNodesToAdd := nodesToAdd prevData newLinksData in
  filter
    (fun l => Exists (fun n => Some (id n) = as_string (target l)) safeNodesToAdd
              ∨ set_has (existingNodeIds prevData) (target l))
    (linksToAdd prevData selectedId newLinksData).

(** The function passed to [setGraphData]; [selectedId] is [selectedNode.id]
    and [newLinksData] the answer of [getArticleLinks]. *)
Definition expand (selectedId : string) (newLinksData : list string)
    (prevData : GraphData) : GraphData :=
  let safeNodesToAdd := nodesToAdd prevData newLinksData in
  if decide (length safeNodesToAdd = 0) then prevData
  else
    mkGraphData
      (nodes prevData ++ safeNodesToAdd)
      (links prevData ++ safeLinksToAdd prevData selectedId newLinksData).

(** ** relabel: the state update of [toggleLang] *)

(** What [translationMap[i] || i] can be.  [translationMap] is the plain
    object [getBatchTranslations] fills, so besides the entries written into
    it, it answers to the names every object inherits from
    [Object.prototype], with a function or an object that is no string. *)
Inductive Value : Type :=
| VString (s : string)
| VInherited (name : string).

#[global] Instance Value_eq_dec : EqDecision Value.
Proof. solve_decision. Defined.

(** The property names of [Object.prototype]. *)
Definition inherited_names : list string :=
  ["constructor"; "hasOwnProperty"; "isPrototypeOf"; "propertyIsEnumerable";
   "toLocaleString"; "toString"; "valueOf"; "__proto__";
   "__defineGetter__"; "__defineSetter__"; "__lookupGetter__";
   "__lookupSetter__"].

(** [translationMap[i] || i]: an entry of the map wins, unless it is the
    empty string, which is falsy; without an entry an inherited member is
    found under its name, and it is truthy; otherwise the lookup is
    [undefined] and the id stays. *)
Definition translated (translationMap : gmap string string) (i : string)
  : Value :=
  match translationMap !! i with
  | Some t => if decide (t = "") then VString i else VString t
  | None => if decide (i ∈ inherited_names) then VInherited i else VString i
  end.

(** [{ ...node, id: ..., x: undefined, y: undefined, vx: undefined,
       vy: undefined, index: undefined }] *)
Definition relabel_node (translationMap : gmap string string) (node : GraphNode)
  : GraphNode_ Value :=
  mkGraphNode (translated translationMap (id node)) (group node) (val node)
    None None None None None (fx node) (fy node).

Definition relabel_link (translationMap : gmap string string) (link : GraphLink)
  : GraphLink_ Value :=
  let sourceId := getId (source link) in
  let targetId := getId (target link) in
  link_lit (translated translationMap sourceId)
           (translated translationMap targetId).

(** [newNodes] and [newLinks], as [toggleLang] passes them to
    [setGraphData]. *)
Definition relabel (translationMap : gmap string string) (graphData : GraphData)
  : GraphData_ Value :=
  let newNodes := fmap (relabel_node translationMap) (nodes graphData) in
  let newLinks := fmap (relabel_link translationMap) (links graphData) in
  mkGraphData newNodes newLinks.

(** A relabelled graph is a [GraphData] of [types.ts] when all its ids are
    strings. *)
Definition typed_id (v : Value) : option string :=
  match v with
  | VString s => Some s
  | VInherited _ => None
  end.

Definition typed_node (n : GraphNode_ Value) : option GraphNode :=
  i ← typed_id (id n);
  Some (mkGraphNode i (group n) (val n) (index n) (x n) (y n) (vx n) (vy n)
          (fx n) (fy n)).

Definition typed_endpoint (e : Endpoint_ Value) : option Endpoint :=
  match e with
  | EString v => EString <$> typed_id v
  | ENode n => ENode <$> typed_node n
  end.

Definition typed_link (l : GraphLink_ Value) : option GraphLink :=
  s ← typed_endpoint (source l);
  t ← typed_endpoint (target l);
  Some (mkGraphLink s t).

Definition typed (g : GraphData_ Value) : option GraphData :=
  ns ← mapM typed_node (nodes g);
  ls ← mapM typed_link (links g);
  Some (mkGraphData ns ls).

(** ** The application state ([App.tsx]) *)

Inductive AppState : Type := IDLE | LOADING | VIEWING | ERROR.

Inductive Language : Type := en | fr.

(** The [useState] cells the graph operations read or write; the calls of
    [loadGraphData], [toggleLang] and [handleExpandNode] that are waiting
    for the provider, each with what its closure holds (the title; the
    graph and the target language; the selected node); and whether the
    application is still mounted. *)
Record App : Type := mkApp {
  appState : AppState;
  graphData : GraphData;
  selectedNode : option GraphNode;
  lang : Language;
  pendingSearches : list string;
  pendingToggles : list (GraphData * Language);
  pendingExpands : list GraphNode;
  mounted : bool
}.

Definition initial : App := mkApp IDLE empty_graph None en [] [] [] true.

#[global] Instance AppState_eq_dec : EqDecision AppState.
Proof. solve_decision. Defined.

Definition setAppState (s : AppState) (a : App) : App :=
  mkApp s (graphData a) (selectedNode a) (lang a)
    (pendingSearches a) (pendingToggles a) (pendingExpands a) (mounted a).

Definition setGraphData (g : GraphData) (a : App) : App :=
  mkApp (appState a) g (selectedNode a) (lang a)
    (pendingSearches a) (pendingToggles a) (pendingExpands a) (mounted a).

Definition setSelectedNode (n : option GraphNode) (a : App) : App :=
  mkApp (appState a) (graphData a) n (lang a)
    (pendingSearches a) (pendingToggles a) (pendingExpands a) (mounted a).

Definition setLang (l : Language) (a : App) : App :=
  mkApp (appState a) (graphData a) (selectedNode a) l
    (pendingSearches a) (pendingToggles a) (pendingExpands a) (mounted a).

Definition setPendingSearches (p : list string) (a : App) : App :=
  mkApp (appState a) (graphData a) (selectedNode a) (lang a)
    p (pendingToggles a) (pendingExpands a) (mounted a).

Definition setPendingToggles (p : list (GraphData * Language)) (a : App) : App :=
  mkApp (appState a) (graphData a) (selectedNode a) (lang a)
    (pendingSearches a) p (pendingExpands a) (mounted a).

Definition setPendingExpands (p : list GraphNode) (a : App) : App :=
  mkApp (appState a) (graphData a) (selectedNode a) (lang a)
    (pendingSearches a) (pendingToggles a) p (mounted a).

(** The application is unmounted: no handler runs any more and nothing
    reads its cells. *)
Definition unmount (a : App) : App :=
  mkApp (appState a) (graphData a) (selectedNode a) (lang a)
    (pendingSearches a) (pendingToggles a) (pendingExpands a) false.

(** What the user and the provider can make happen, one event per stretch
    of code that runs without interruption: a handler up to its [await],
    and what follows the [await] once the provider has answered the [k]-th
    of the waiting calls ([None] is a rejected promise).  Between two events
    React renders, so a handler reads the state as the event finds it, and
    what follows an [await] reads what the handler captured. *)
Inductive Event : Type :=
| Search (title : string)
| SearchResolved (k : nat) (answer : option (list string))
| ToggleLang
| ToggleResolved (k : nat) (answer : option (gmap string string))
| NodeClick (node : GraphNode)
| ClosePanel
| ExpandNode
| ExpandResolved (k : nat) (answer : option (list string))
| Reset.

(** [handleSearch] with the title [extractTitleFromUrl] found, up to the
    [await] of [loadGraphData]; the empty title is falsy and only shows the
    error message. *)
Definition handleSearch (title : string) (a : App) : App :=
  if decide (title = "") then a
  else
    setPendingSearches (pendingSearches a ++ [title])
      (setSelectedNode None (setAppState LOADING a)).

(** [loadGraphData] after the [await]: the [try] with the links, or the
    [catch]. *)
Definition handleSearch_resume (k : nat) (answer : option (list string))
    (a : App) : App :=
  match pendingSearches a !! k with
  | None => a
  | Some title =>
      let a := setPendingSearches (delete k (pendingSearches a)) a in
      match answer with
      | Some links_ => setAppState VIEWING (setGraphData (loadGraphData title links_) a)
      | None => setAppState ERROR a
      end
  end.

(** [toggleLang] up to the [await]: [targetLang] and [graphData] are fixed
    here. *)
Definition toggleLang (a : App) : App :=
  let targetLang := match lang a with en => fr | fr => en end in
  if decide (appState a = VIEWING ∧ 0 < length (nodes (graphData a))) then
    setPendingToggles (pendingToggles a ++ [(graphData a, targetLang)])
      (setAppState LOADING a)
  else setLang targetLang a.

(** Whether [newNodes[0].id] is a string, so that [getWikiUrl] can call
    [title.replace] on it. *)
Definition root_is_string (g : GraphData_ Value) : bool :=
  match nodes g with
  | root :: _ => match id root with VString _ => true | VInherited _ => false end
  | [] => true
  end.

(** [toggleLang] after the [await].  With the translations it sets the
    language and the relabelled graph, clears the selection and goes to
    [VIEWING]; the [catch] sets the language and [VIEWING], after a rejected
    promise and also after [getWikiUrl] has thrown on a root id that is no
    string, when the graph has been set already and the selection stays.
    A graph in which an id is no string cannot be drawn ([initGraph] throws
    at [d.id.substring], line 131) and is no [GraphData] of [types.ts]: the
    application is unmounted and [graphData] is left as it last was.  (For
    titles that are well-formed strings [getWikiUrl] throws in no other
    case.) *)
Definition toggleLang_resume (k : nat) (answer : option (gmap string string))
    (a : App) : App :=
  match pendingToggles a !! k with
  | None => a
  | Some (graphData_, targetLang) =>
      let a := setPendingToggles (delete k (pendingToggles a)) a in
      match answer with
      | Some translationMap =>
          let newGraph := relabel translationMap graphData_ in
          match typed newGraph with
          | Some newGraph =>
              setAppState VIEWING
                (setSelectedNode None
                   (setGraphData newGraph (setLang targetLang a)))
          | None =>
              if root_is_string newGraph then
                unmount (setAppState VIEWING
                           (setSelectedNode None (setLang targetLang a)))
              else unmount (setAppState VIEWING (setLang targetLang a))
          end
      | None => setAppState VIEWING (setLang targetLang a)
      end
  end.

(** [setSelectedNode(node)]; the summary it then loads is no part of the
    graph. *)
Definition handleNodeClick (node : GraphNode) (a : App) : App :=
  setSelectedNode (Some node) a.

(** [onNodeClick] is called by a bubble of the rendered graph: the canvas is
    mounted only in state [VIEWING] and its bubbles are the simulator's copies
    of the nodes of [graphData], with whatever coordinates they have by
    then. *)
Definition bubble_rendered (a : App) (node : GraphNode) : Prop :=
  appState a = VIEWING ∧ id node ∈ node_ids (graphData a).

(** [handleExpandNode] up to the [await]: [selectedNode] is fixed here. *)
Definition handleExpandNode (a : App) : App :=
  match selectedNode a with
  | None => a
  | Some sel => setPendingExpands (pendingExpands a ++ [sel]) a
  end.

(** [handleExpandNode] after the [await]: the updater is applied to the
    graph that is there by then, with the node selected back then. *)
Definition handleExpandNode_resume (k : nat) (answer : option (list string))
    (a : App) : App :=
  match pendingExpands a !! k with
  | None => a
  | Some sel =>
      let a := setPendingExpands (delete k (pendingExpands a)) a in
      match answer with
      | Some newLinksData =>
          setGraphData (expand (id sel) newLinksData (graphData a)) a
      | None => a
      end
  end.

Definition reset (a : App) : App :=
  setSelectedNode None (setGraphData empty_graph (setAppState IDLE a)).

Definition handle (a : App) (e : Event) : App :=
  if mounted a then
    match e with
    | Search title => handleSearch title a
    | SearchResolved k answer => handleSearch_resume k answer a
    | ToggleLang => toggleLang a
    | ToggleResolved k answer => toggleLang_resume k answer a
    | NodeClick node =>
        if decide (bubble_rendered a node) then handleNodeClick node a else a
    | ClosePanel => setSelectedNode None a
    | ExpandNode => handleExpandNode a
    | ExpandResolved k answer => handleExpandNode_resume k answer a
    | Reset => reset a
    end
  else a.

Definition run (events : list Event) : App := foldl handle initial events.

(** ** The simulator hand-over ([ForceGraph.tsx], [initGraph]) *)

Module Simulator.

(** [Math.min(600, 100 + (nodeCount * 0.8))] *)
Definition dynamicLinkDistance (nodeCount : nat) : Q :=
  Qmin 600 (100 + inject_Z (Z.of_nat nodeCount) * 0.8).

(** [Math.max(-2000, -300 - (nodeCount * 3))] *)
Definition dynamicChargeStrength (nodeCount : nat) : Q :=
  Qmax (-2000) (-300 - inject_Z (Z.of_nat nodeCount) * 3).


(** The spec's [clamp(v, lo, hi)]. *)
Definition clamp (v lo hi : Q) : Q := Qmax lo (Qmin hi v).

(** What [initGraph] passes to d3: the copies of the store's nodes and
    links and the constants of the forces. *)
Record Simulation : Type := mkSimulation {
  sim_nodes : list GraphNode;
  sim_links : list GraphLink;
  linkDistance : Q;
  chargeStrength : Q;
  isHighCount : bool
}.

(** [data.nodes.map(d => ({ ...d }))]: a copy has the fields of its
    original.  [initGraph] reads [data] and nothing of the simulation it
    replaces. *)
Definition initGraph (data : GraphData) : Simulation :=
  let nodes_ := fmap (fun d : GraphNode => d) (nodes data) in
  let links_ := fmap (fun d : GraphLink => d) (links data) in
  let nodeCount := length nodes_ in
  mkSimulation nodes_ links_
    (dynamicLinkDistance nodeCount) (dynamicChargeStrength nodeCount)
    (bool_decide (100 < nodeCount)).


(** The drag handlers, on the simulator's copy [d] of a node. *)
Definition dragstarted (d : GraphNode) : GraphNode :=
  mkGraphNode (id d) (group d) (val d) (index d) (x d) (y d) (vx d) (vy d)
    (x d) (y d).

Definition dragged (event_x event_y : number) (d : GraphNode) : GraphNode :=
  mkGraphNode (id d) (group d) (val d) (index d) (x d) (y d) (vx d) (vy d)
    (Some event_x) (Some event_y).

Definition dragended (d : GraphNode) : GraphNode :=
  mkGraphNode (id d) (group d) (val d) (index d) (x d) (y d) (vx d) (vy d)
    None None.

(** A handler applied to the [i]-th node of the running simulation. *)
Definition on_node (i : nat) (h : GraphNode -> GraphNode) (s : Simulation)
  : Simulation :=
  mkSimulation (alter h i (sim_nodes s)) (sim_links s)
    (linkDistance s) (chargeStrength s) (isHighCount s).

(** The layout state of a node: coordinates, velocity and pin. *)
Definition layout {I : Type} (d : GraphNode_ I)
  : option number * option number * option number * option number
    * option number * option number :=
  (x d, y d, vx d, vy d, fx d, fy d).

Definition unplaced {I : Type} (d : GraphNode_ I) : Prop :=
  layout d = (None, None, None, None, None, None).

End Simulator.

(** ** Batch translation ([wikiService.ts], [getBatchTranslations]) *)

(** One entry of [data.query.pages]; [langlinks] lists the ['*'] fields. *)
Record Page : Type := mkPage {
  title : string;
  langlinks : option (list string)
}.

(** What one request can do: [fetch] or [response.json()] throws, or a JSON
    document arrives, with or without [query.pages] (given in the order of
    [Object.values]). *)
Inductive Response : Type :=
| Thrown
| Json (pages : option (list Page)).

(** [Array.from(new Set(titles))]: a Set iterates in insertion order, so each
    title stays at its first occurrence. *)
Fixpoint set_order (seen : gset string) (titles : list string) : list string :=
  match titles with
  | [] => []
  | t :: titles =>
      if decide (t ∈ seen) then set_order seen titles
      else t :: set_order ({[t]} ∪ seen) titles
  end.

Definition chunkSize : nat := 50.

(** [chunk.join('|')] *)
Definition join (sep : string) (chunk : list string) : string :=
  String.concat sep chunk.

(** The body of the [forEach]. *)
Definition store_page (translations : gmap string string) (page : Page)
  : gmap string string :=
  match langlinks page with
  | Some (t :: _) => <[title page := t]> translations
  | _ => translations
  end.

(** What the [try] block leaves in [translations]; [catch] only logs. *)
Definition gather (translations : gmap string string) (r : Response)
  : gmap string string :=
  match r with
  | Json (Some pages) => foldl store_page translations pages
  | Json None => translations
  | Thrown => translations
  end.

Section BatchTranslations.

(** The provider: the state of the network and the request
    [titles=titlesParam] decide the response and the next state. *)
Variable World : Type.
Variable fetch : string -> World -> Response * World.

(** The variables of the loop, and the batches sent so far with their
    responses (kept for the statements only). *)
Record Loop : Type := mkLoop {
  translations : gmap string string;
  world : World;
  sent : list (list string * Response)
}.

(** [for (let i = 0; i < uniqueTitles.length; i += chunkSize)]; the index
    grows by 50 each turn, so [length uniqueTitles] turns of fuel suffice. *)
Fixpoint batch_loop (fuel : nat) (uniqueTitles : list string) (i : nat)
    (st : Loop) : Loop :=
  match fuel with
  | O => st
  | S fuel =>
      if decide (i < length uniqueTitles) then
        let chunk := take chunkSize (drop i uniqueTitles) in
        let titlesParam := join "|" chunk in
        let '(response, w) := fetch titlesParam (world st) in
        batch_loop fuel uniqueTitles (i + chunkSize)
          (mkLoop (gather (translations st) response) w
             (sent st ++ [(chunk, response)]))
      else st
  end.

Definition getBatchTranslations (titles : list string) (w : World) : Loop :=
  if decide (length titles = 0) then mkLoop ∅ w []
  else
    let uniqueTitles := set_order ∅ titles in
    batch_loop (length uniqueTitles) uniqueTitles 0 (mkLoop ∅ w []).

(** A batch is well formed when it holds between 1 and 50 titles and its
    response is what the provider answered to the joined titles. *)
Definition batch_ok (e : list string * Response) : Prop :=
  0 < length e.1 ≤ chunkSize
  ∧ ∃ w, (fetch (join "|" e.1) w).1 = e.2.

End BatchTranslations.

Arguments translations {World} _.
Arguments world {World} _.
Arguments sent {World} _.
Arguments batch_ok {World} _ _.

(** ** The operations of the graph store, as the spec names them *)

(** [seed], [expand] and [clear] take a graph of [types.ts] to another;
    [relabel], whose result need not be one, is kept apart. *)
Inductive Op : Type :=
| Seed (rootTitle : string) (linkedTitles : list string)
| Expand (fromNodeId : string) (linkedTitles : list string)
| Clear.

Definition apply_op (g : GraphData) (o : Op) : GraphData :=
  match o with
  | Seed rootTitle linkedTitles => loadGraphData rootTitle linkedTitles
  | Expand fromNodeId linkedTitles => expand fromNodeId linkedTitles g
  | Clear => empty_graph
  end.

Definition apply_ops (ops : list Op) : GraphData := foldl apply_op empty_graph ops.

(** The linked titles an operation carries, if it carries any. *)
Definition op_titles (o : Op) : option (list string) :=
  match o with
  | Seed _ linkedTitles | Expand _ linkedTitles => Some linkedTitles
  | Clear => None
  end.

(** Every link joins two nodes of the graph. *)
Definition no_dangling {I : Type} (g : GraphData_ I) : Prop :=
  ∀ l, l ∈ links g →
    getId (source l) ∈ node_ids g ∧ getId (target l) ∈ node_ids g.

(** ** Auxiliary notions for the statements *)

(** The titles that become nodes: those that are no node id yet. *)
Definition new_titles (g : GraphData) (newLinksData : list string) : list string :=
  filter (fun i => i ∉ node_ids g) newLinksData.

(** The links that pass the key test, by their targets. *)
Definition unkeyed_titles (g : GraphData) (selectedId : string)
    (newLinksData : list string) : list string :=
  filter (fun t => link_key selectedId t ∉ existingLinkKeys g) newLinksData.

(** The store never holds a position, a velocity or a pin. *)
Definition store_unplaced {I : Type} (g : GraphData_ I) : Prop :=
  Forall Simulator.unplaced (nodes g).

(** Every node has weight 1 or 2. *)
Definition weighted {I : Type} (g : GraphData_ I) : Prop :=
  Forall (fun n => val n = Some 1%Q ∨ val n = Some 2%Q) (nodes g).

(** What holds of the graph in the state and of every graph a waiting
    [toggleLang] holds. *)
Definition app_invariant (a : App) : Prop :=
  (store_unplaced (graphData a) ∧ weighted (graphData a))
  ∧ Forall (fun p => store_unplaced p.1 ∧ weighted p.1) (pendingToggles a).

(** Closed decidable facts are settled by evaluation. *)
Ltac by_evaluation := apply (bool_decide_unpack _); vm_compute; exact I.

(** ** Further functions of the source *)

(** *** [ForceGraph.tsx]: the radius a bubble is first drawn with *)

(** [d.val ? Math.max(20, d.val * 5) : 20]: a missing weight and the weight 0
    are both falsy. *)
Definition node_radius (d : GraphNode) : Q :=
  match val d with
  | Some v => if Qeq_dec v 0 then 20%Q else Qmax 20 (v * 5)
  | None => 20%Q
  end.

(** *** [App.tsx]: the request [toggleLang] awaits *)

(** [await getBatchTranslations(allNodeIds, lang, targetLang)], for the
    graph the call of [toggleLang] holds. *)
Definition awaited_translations {World : Type}
    (fetch : string -> World -> Response * World) (graphData_ : GraphData)
    (w : World) : gmap string string :=
  let allNodeIds := fmap id (nodes graphData_) in
  translations (getBatchTranslations World fetch allNodeIds w).

(** *** [wikiService.ts]: [getWikiUrl] *)

(** A string is the sequence of the bytes of its UTF-8 encoding, so that a
    space is the byte 32 and [encodeURIComponent] works byte by byte. *)

(** [title.replace(/ /g, '_')] *)
Fixpoint underscored (title_ : string) : string :=
  match title_ with
  | EmptyString => EmptyString
  | String c rest =>
      String (if Ascii.eqb c " " then "_"%char else c) (underscored rest)
  end.

(** The characters [encodeURIComponent] leaves as they are: letters, digits
    and [- _ . ! ~ * ' ( )]. *)
Definition unreserved (c : ascii) : bool :=
  let n := N_of_ascii c in
  ((65 <=? n) && (n <=? 90) || (97 <=? n) && (n <=? 122)
   || (48 <=? n) && (n <=? 57))%N
  || bool_decide (c ∈ String.list_ascii_of_string "-_.!~*'()").

Definition hex_digit (n : N) : ascii :=
  ascii_of_N (if (n <? 10)%N then 48 + n else 55 + n).

(** [%XX], with upper-case digits. *)
Definition percent_encoded (c : ascii) : string :=
  String "%" (String (hex_digit (N_of_ascii c / 16))
                (String (hex_digit (N_of_ascii c mod 16)) EmptyString)).

Fixpoint encodeURIComponent (s : string) : string :=
  match s with
  | EmptyString => EmptyString
  | String c rest =>
      ((if unreserved c then String c EmptyString else percent_encoded c)
       ++ encodeURIComponent rest)%string
  end.

Definition language_code (l : Language) : string :=
  match l with en => "en" | fr => "fr" end.

(** [`https://${lang}.wikipedia.org/wiki/${encodeURIComponent(...)}`] *)
Definition getWikiUrl (title_ : string) (l : Language) : string :=
  ("https://" ++ language_code l ++ ".wikipedia.org/wiki/"
   ++ encodeURIComponent (underscored title_))%string.

(** *** [wikiService.ts]: [getWikiSummary] *)

Section Summary.

(** The text of an extract, as the UTF-16 code units [length] and
    [substring] count; [dot] is the code unit of a full stop. *)
Context {unit16 : Type} (dot : unit16).

Record ExtractPage : Type := mkExtractPage {
  extract : option (list unit16)
}.

(** The response to the summary request; [pages] pairs each key of
    [data.query.pages] with its entry, in the order of [Object.keys]. *)
Inductive SummaryResponse : Type :=
| SummaryThrown
| SummaryJson (pages : option (list (string * ExtractPage))).

Definition getWikiSummary (response : SummaryResponse) : list unit16 :=
  match response with
  | SummaryThrown => []
  | SummaryJson None => []
  | SummaryJson (Some []) => []
  | SummaryJson (Some ((pageId, page) :: _)) =>
      if decide (pageId = "-1") then []
      else
        match extract page with
        | None => []
        | Some text =>
            if decide (length text = 0) then []
            else if decide (350 < length text)
                 then take 350 text ++ [dot; dot; dot]
                 else text
        end
  end.

End Summary.

Arguments extract {unit16} _.
Arguments mkExtractPage {unit16} _.
Arguments SummaryThrown {unit16}.

(** *** Notions for the statements below *)

(** A character that [encodeURIComponent] can put out. *)
Definition url_safe (c : ascii) : bool := unreserved c || Ascii.eqb c "%".

(** The byte two hexadecimal digits stand for. *)
Definition hex_value (c : ascii) : N :=
  let n := N_of_ascii c in (if (n <? 58) then n - 48 else n - 55)%N.

Definition unescaped (hi lo : ascii) : ascii :=
  ascii_of_N (hex_value hi * 16 + hex_value lo).

(** The character [-] occurs in the string. *)
Fixpoint has_hyphen (s : string) : bool :=
  match s with
  | EmptyString => false
  | String c rest => Ascii.eqb c "-" || has_hyphen rest
  end.

(** * Properties *)

(** ** seed *)

Lemma node_ids_loadGraphData rootTitle linkedTitles :
  node_ids (loadGraphData rootTitle linkedTitles) = rootTitle :: linkedTitles.
Proof.
  unfold node_ids, loadGraphData; cbn. f_equal.
  rewrite <- list_fmap_compose. apply list_fmap_id.
Qed.

Lemma link_pairs_loadGraphData rootTitle linkedTitles :
  link_pairs (loadGraphData rootTitle linkedTitles)
  = fmap (fun t => (rootTitle, t)) linkedTitles.
Proof.
  unfold link_pairs, loadGraphData; cbn. now rewrite <- list_fmap_compose.
Qed.

Lemma NoDup_pair_with {A B} (a : A) (l : list B) :
  NoDup (fmap (fun b => (a, b)) l) ↔ NoDup l.
Proof.
  split.
  - apply NoDup_fmap_1.
  - apply NoDup_fmap_2. intros b1 b2 Heq. congruence.
Qed.

(** The scenario of the spec: four nodes, three links out of the root. *)
Example seed_albert_einstein :
  let g := loadGraphData "Albert Einstein" ["Physics"; "Nobel Prize"; "Germany"] in
  node_ids g = ["Albert Einstein"; "Physics"; "Nobel Prize"; "Germany"]
  ∧ fmap val (nodes g) = [Some 2%Q; Some 1%Q; Some 1%Q; Some 1%Q]
  ∧ link_pairs g = [("Albert Einstein", "Physics");
                    ("Albert Einstein", "Nobel Prize");
                    ("Albert Einstein", "Germany")].
Proof. repeat split. Qed.

(** C1, as stated, fails: a title that occurs twice in [linkedTitles] gets
    two nodes, not one. *)
Lemma seed_repeated_title_two_nodes :
  node_ids (loadGraphData "Root" ["A"; "A"]) = ["Root"; "A"; "A"]
  ∧ length (filter (fun n => id n = "A") (nodes (loadGraphData "Root" ["A"; "A"]))) = 2
  ∧ ¬ NoDup (node_ids (loadGraphData "Root" ["A"; "A"])).
Proof.
  split; [reflexivity|]. split; [reflexivity|].
  cbn. intros Hnd. apply NoDup_cons in Hnd as [_ Hnd].
  apply NoDup_cons in Hnd as [Hin _]. apply Hin. left.
Qed.

(** C1, amended: [seed] yields the root node of weight 2 followed by one node
    of weight 1 per entry of [linkedTitles], in order and without
    deduplication, and one link from the root per entry; the node ids are
    pairwise distinct exactly when the entries are and none of them is the
    root title; with no entry the graph is the root node alone. *)
Theorem seed_one_node_and_link_per_entry (rootTitle : string)
    (linkedTitles : list string) :
  (∃ rest,
      nodes (loadGraphData rootTitle linkedTitles) = node_lit rootTitle 2%Q :: rest
      ∧ fmap id rest = linkedTitles
      ∧ Forall (fun n => val n = Some 1%Q) rest)
  ∧ length (nodes (loadGraphData rootTitle linkedTitles)) = S (length linkedTitles)
  ∧ link_pairs (loadGraphData rootTitle linkedTitles)
    = fmap (fun t => (rootTitle, t)) linkedTitles
  ∧ (NoDup (node_ids (loadGraphData rootTitle linkedTitles))
     ↔ NoDup linkedTitles ∧ rootTitle ∉ linkedTitles)
  ∧ loadGraphData rootTitle [] = mkGraphData [node_lit rootTitle 2%Q] [].
Proof.
  split; [|split; [|split; [|split]]].
  - eexists; split; [reflexivity|]. split.
    + rewrite <- list_fmap_compose. apply list_fmap_id.
    + apply Forall_fmap, Forall_true. reflexivity.
  - cbn. now rewrite length_fmap.
  - apply link_pairs_loadGraphData.
  - rewrite node_ids_loadGraphData, NoDup_cons. tauto.
  - reflexivity.
Qed.

(** ** expand *)

Lemma elem_of_existingNodeIds g i : i ∈ existingNodeIds g ↔ i ∈ node_ids g.
Proof. unfold existingNodeIds, node_ids. apply elem_of_list_to_set. Qed.

Lemma elem_of_existingLinkKeys g k :
  k ∈ existingLinkKeys g ↔ ∃ p, p ∈ link_pairs g ∧ k = link_key p.1 p.2.
Proof.
  unfold existingLinkKeys, link_pairs. rewrite elem_of_list_to_set.
  rewrite list_elem_of_fmap. split.
  - intros (l & -> & Hl). exists (link_pair l). split; [|reflexivity].
    apply list_elem_of_fmap. eauto.
  - intros (p & Hp & ->). apply list_elem_of_fmap in Hp as (l & -> & Hl).
    exists l. split; [reflexivity|assumption].
Qed.

Lemma nodesToAdd_new_titles g newLinksData :
  nodesToAdd g newLinksData
  = fmap (fun i => node_lit i 1%Q) (new_titles g newLinksData).
Proof.
  unfold nodesToAdd, new_titles. f_equal.
  apply list_filter_iff. intros i. now rewrite elem_of_existingNodeIds.
Qed.

Lemma ids_nodesToAdd g newLinksData :
  fmap id (nodesToAdd g newLinksData) = new_titles g newLinksData.
Proof.
  rewrite nodesToAdd_new_titles, <- list_fmap_compose. apply list_fmap_id.
Qed.

Lemma nodesToAdd_nil g newLinksData :
  nodesToAdd g newLinksData = [] ↔ Forall (fun t => t ∈ node_ids g) newLinksData.
Proof.
  rewrite nodesToAdd_new_titles. unfold new_titles. split.
  - intros H. apply fmap_nil_inv in H.
    apply Forall_forall. intros t Ht.
    destruct (decide (t ∈ node_ids g)) as [|Hn]; [assumption|].
    assert (t ∈ filter (fun i => i ∉ node_ids g) newLinksData) as Hin
      by (apply list_elem_of_filter; auto).
    rewrite H in Hin. inversion Hin.
  - intros H. induction H as [|t l Ht _ IH]; [reflexivity|].
    rewrite filter_cons_False by tauto. exact IH.
Qed.

Lemma filter_fmap_comm {A B} (f : A → B) (P : B → Prop)
    `{!∀ b, Decision (P b)} (l : list A) :
  filter P (fmap f l) = fmap f (filter (fun a => P (f a)) l).
Proof.
  induction l as [|a l IH]; [reflexivity|].
  rewrite fmap_cons, !filter_cons.
  destruct (decide (P (f a))); rewrite IH; reflexivity.
Qed.

Lemma filter_all {A} (P : A → Prop) `{!∀ a, Decision (P a)} (l : list A) :
  (∀ a, a ∈ l → P a) → filter P l = l.
Proof.
  induction l as [|a l IH]; intros Hall; [reflexivity|].
  rewrite filter_cons_True by (apply Hall; left).
  f_equal. apply IH. intros b Hb. apply Hall. now right.
Qed.

Lemma linksToAdd_unkeyed g selectedId newLinksData :
  linksToAdd g selectedId newLinksData
  = fmap (link_lit selectedId) (unkeyed_titles g selectedId newLinksData).
Proof. unfold linksToAdd. now rewrite filter_fmap_comm. Qed.

(** The second filter of [handleExpandNode] never rejects a link: a linked
    title is a node id already or becomes a new node. *)
Lemma safeLinksToAdd_linksToAdd g selectedId newLinksData :
  safeLinksToAdd g selectedId newLinksData = linksToAdd g selectedId newLinksData.
Proof.
  unfold safeLinksToAdd. apply filter_all. intros l Hl.
  rewrite linksToAdd_unkeyed in Hl.
  apply list_elem_of_fmap in Hl as (t & -> & Ht).
  apply list_elem_of_filter in Ht as [_ Ht]. cbn.
  destruct (decide (t ∈ node_ids g)) as [Hin|Hnin].
  - right. unfold set_has; cbn. now apply elem_of_existingNodeIds.
  - left. apply Exists_exists. exists (node_lit t 1%Q). split; [|reflexivity].
    rewrite nodesToAdd_new_titles. apply list_elem_of_fmap.
    exists t. split; [reflexivity|]. apply list_elem_of_filter. auto.
Qed.

Lemma link_pairs_link_lit selectedId (ts : list string) :
  fmap link_pair (fmap (link_lit selectedId) ts)
  = fmap (fun t => (selectedId, t)) ts.
Proof. now rewrite <- list_fmap_compose. Qed.

(** What [expand] returns when there is a new node. *)
Lemma expand_grows g selectedId newLinksData :
  nodesToAdd g newLinksData ≠ [] →
  expand selectedId newLinksData g
  = mkGraphData
      (nodes g ++ fmap (fun i => node_lit i 1%Q) (new_titles g newLinksData))
      (links g ++ fmap (link_lit selectedId)
                    (unkeyed_titles g selectedId newLinksData)).
Proof.
  intros Hne. unfold expand.
  destruct (decide (length (nodesToAdd g newLinksData) = 0)) as [H0|_].
  - apply length_zero_iff_nil in H0. contradiction.
  - now rewrite safeLinksToAdd_linksToAdd, linksToAdd_unkeyed,
      nodesToAdd_new_titles.
Qed.

Lemma expand_unchanged g selectedId newLinksData :
  nodesToAdd g newLinksData = [] → expand selectedId newLinksData g = g.
Proof. intros H. unfold expand. now rewrite H. Qed.

Lemma node_ids_expand g selectedId newLinksData :
  node_ids (expand selectedId newLinksData g)
  = node_ids g ++ new_titles g newLinksData.
Proof.
  destruct (decide (nodesToAdd g newLinksData = [])) as [H|H].
  - rewrite expand_unchanged by assumption.
    rewrite <- ids_nodesToAdd, H. cbn. now rewrite app_nil_r.
  - rewrite expand_grows by assumption. unfold node_ids; cbn.
    rewrite fmap_app, <- list_fmap_compose. f_equal. apply list_fmap_id.
Qed.

Lemma expand_covers_titles g selectedId newLinksData t :
  t ∈ newLinksData → t ∈ node_ids (expand selectedId newLinksData g).
Proof.
  intros Ht. rewrite node_ids_expand, elem_of_app.
  destruct (decide (t ∈ node_ids g)); [now left|right].
  apply list_elem_of_filter. auto.
Qed.

Lemma expand_links_NoDup g selectedId newLinksData :
  NoDup newLinksData → NoDup (link_pairs g) →
  NoDup (link_pairs (expand selectedId newLinksData g)).
Proof.
  intros Hts Hg.
  destruct (decide (nodesToAdd g newLinksData = [])) as [H|H].
  - now rewrite expand_unchanged.
  - rewrite expand_grows by assumption. unfold link_pairs; cbn.
    rewrite fmap_app, link_pairs_link_lit. apply NoDup_app.
    split; [exact Hg|]. split.
    + intros p Hp Hin. apply list_elem_of_fmap in Hin as (t & -> & Ht).
      apply list_elem_of_filter in Ht as [Hkey _]. apply Hkey.
      apply elem_of_existingLinkKeys. exists (selectedId, t). auto.
    + apply NoDup_pair_with. now apply NoDup_filter.
Qed.

Lemma apply_ops_snoc ops o : apply_ops (ops ++ [o]) = apply_op (apply_ops ops) o.
Proof. unfold apply_ops. now rewrite foldl_app. Qed.

(** C2, as stated, fails: [seed] makes one link per entry, so a title that
    occurs twice gives two links with the same source and target. *)
Lemma seed_repeated_title_duplicate_link :
  link_pairs (apply_ops [Seed "Root" ["A"; "A"]]) = [("Root", "A"); ("Root", "A")]
  ∧ ¬ NoDup (link_pairs (apply_ops [Seed "Root" ["A"; "A"]])).
Proof. split; [reflexivity|]. by_evaluation. Qed.

(** [expand] repeats a link in the same way when the repeated title is new. *)
Example expand_repeated_title_duplicate_link :
  link_pairs (apply_ops [Seed "Root" ["A"]; Expand "A" ["B"; "B"]])
  = [("Root", "A"); ("A", "B"); ("A", "B")].
Proof. reflexivity. Qed.

(** C2, amended: for every sequence of [seed] and [expand] operations from the
    empty graph in which no list of linked titles repeats a title, the graph
    has no two links with the same ordered (source, target) pair. *)
Theorem no_duplicate_links_when_titles_distinct (ops : list Op) :
  Forall (fun o => ∃ ts, op_titles o = Some ts ∧ NoDup ts) ops →
  NoDup (link_pairs (apply_ops ops)).
Proof.
  induction ops as [|o ops IH] using rev_ind; intros Hops.
  - apply NoDup_nil_2.
  - apply Forall_app in Hops as [Hops Ho].
    apply Forall_inv in Ho as (ts & Hts & Hnd). rewrite apply_ops_snoc.
    destruct o as [rootTitle ts'|fromNodeId ts'|]; cbn in Hts; simplify_eq;
      unfold apply_op.
    + rewrite link_pairs_loadGraphData. now apply NoDup_pair_with.
    + apply expand_links_NoDup; auto.
Qed.

Lemma no_duplicate_links_when_titles_distinct_witness :
  NoDup (link_pairs (apply_ops
    [Seed "Albert Einstein" ["Physics"; "Nobel Prize"; "Germany"];
     Expand "Physics" ["Quantum Mechanics"; "Germany"]])).
Proof.
  apply no_duplicate_links_when_titles_distinct.
  repeat (apply Forall_cons; split; [eexists; split; [reflexivity|by_evaluation]|]).
  apply Forall_nil_2.
Defined.

(** C5: expanding twice from the same node with the same linked titles gives
    the graph that expanding once gives. *)
Theorem expand_twice_is_expand_once (g : GraphData) (fromId : string)
    (links_ : list string) :
  expand fromId links_ (expand fromId links_ g) = expand fromId links_ g.
Proof.
  apply expand_unchanged, nodesToAdd_nil, Forall_forall.
  intros t Ht. now apply expand_covers_titles.
Qed.

(** C6: an [expand] whose computed list of new nodes is empty returns the
    graph it was given, nodes and links alike. *)
Theorem expand_without_new_node_is_noop (g : GraphData) (fromId : string)
    (links_ : list string) :
  nodesToAdd g links_ = [] →
  expand fromId links_ g = g
  ∧ nodes (expand fromId links_ g) = nodes g
  ∧ links (expand fromId links_ g) = links g.
Proof. intros H. now rewrite expand_unchanged. Qed.

Lemma expand_without_new_node_is_noop_witness :
  let seeded := loadGraphData "Albert Einstein" ["Physics"; "Nobel Prize"; "Germany"] in
  nodesToAdd seeded ["Nobel Prize"] = []
  ∧ expand "Physics" ["Nobel Prize"] seeded = seeded.
Proof.
  intros seeded. split; [reflexivity|].
  apply (expand_without_new_node_is_noop seeded "Physics" ["Nobel Prize"]).
  reflexivity.
Defined.

(** The scenario of the spec: one new title adds one node and one link. *)
Example expand_quantum_mechanics :
  let seeded := loadGraphData "Albert Einstein" ["Physics"; "Nobel Prize"; "Germany"] in
  let g := expand "Physics" ["Quantum Mechanics"] seeded in
  nodes g = nodes seeded ++ [node_lit "Quantum Mechanics" 1%Q]
  ∧ links g = links seeded ++ [link_lit "Physics" "Quantum Mechanics"].
Proof. split; vm_compute; reflexivity. Qed.

(** C10: [expand] recognises a link by the string [source-target]; the pairs
    ("a", "b-c") and ("a-b", "c") have the same key, and in a graph that holds
    the first, expanding "a-b" with the titles "c" and "d" adds the link to
    "d" but not the link to "c", though "c" is a node and no link from "a-b"
    to "c" exists. *)
Theorem link_key_collision_drops_new_link :
  link_key "a" "b-c" = link_key "a-b" "c"
  ∧ ("a", "b-c") ≠ ("a-b", "c")
  ∧ ∃ (g : GraphData) (fromId t : string) (titles : list string),
      g = apply_ops [Seed "a" ["b-c"; "a-b"; "c"]]
      ∧ (("a", "b-c") ∈ link_pairs g)
      ∧ (fromId ∈ node_ids g) ∧ (t ∈ node_ids g) ∧ (t ∈ titles)
      ∧ ((fromId, t) ∉ link_pairs g)
      ∧ (link_key fromId t ∈ existingLinkKeys g)
      ∧ nodesToAdd g titles ≠ []
      ∧ ((fromId, t) ∉ link_pairs (expand fromId titles g))
      ∧ link_pairs (expand fromId titles g) = link_pairs g ++ [(fromId, "d")].
Proof.
  split; [reflexivity|]. split; [discriminate|].
  exists (apply_ops [Seed "a" ["b-c"; "a-b"; "c"]]), "a-b", "c", ["c"; "d"].
  split; [reflexivity|].
  do 6 (split; [by_evaluation|]).
  split; [discriminate|]. split; [by_evaluation|]. vm_compute. reflexivity.
Qed.

(** ** relabel *)

Lemma node_ids_relabel m g :
  node_ids (relabel m g) = fmap (translated m) (node_ids g).
Proof. unfold node_ids, relabel; cbn. now rewrite <- !list_fmap_compose. Qed.

Lemma link_pairs_relabel m g :
  link_pairs (relabel m g)
  = fmap (prod_map (translated m) (translated m)) (link_pairs g).
Proof. unfold link_pairs, relabel; cbn. now rewrite <- !list_fmap_compose. Qed.

Lemma count_elem_of {A} `{EqDecision A} (a : A) (l : list A) :
  a ∈ l → 1 ≤ length (filter (fun i => i = a) l).
Proof.
  intros Hin. induction Hin as [a l|a c l Hin IH].
  - rewrite filter_cons_True by reflexivity. cbn. lia.
  - rewrite filter_cons. destruct (decide (c = a)); cbn; lia.
Qed.

Lemma count_collision {A B} `{EqDecision B} (f : A → B) (a b : A) (l : list A) :
  a ∈ l → b ∈ l → a ≠ b → f a = f b →
  2 ≤ length (filter (fun i => i = f a) (fmap f l)).
Proof.
  intros Ha Hb Hab Hf. induction l as [|c l IH]; [inversion Ha|].
  rewrite fmap_cons, filter_cons.
  apply elem_of_cons in Ha as [->|Ha]; apply elem_of_cons in Hb as [->|Hb].
  - congruence.
  - rewrite decide_True by reflexivity. cbn.
    assert (f c ∈ fmap f l) as Hin
      by (rewrite Hf; apply list_elem_of_fmap; eauto).
    apply count_elem_of in Hin. lia.
  - rewrite decide_True by congruence. cbn.
    assert (f a ∈ fmap f l) as Hin by (apply list_elem_of_fmap; eauto).
    apply count_elem_of in Hin. lia.
  - specialize (IH Ha Hb). destruct (decide (f c = f a)); cbn; lia.
Qed.

(** The scenario of the spec: an id without a mapping entry stays. *)
Example relabel_physique :
  node_ids (relabel {["Physics" := "Physique"]}
    (loadGraphData "Albert Einstein" ["Physics"; "Nobel Prize"; "Germany"]))
  = fmap VString ["Albert Einstein"; "Physique"; "Nobel Prize"; "Germany"].
Proof. vm_compute. reflexivity. Qed.

(** C3, as stated, fails: when "A" and "B" both translate to "C", the graph
    keeps two nodes "C" and two links from the root to "C". *)
Lemma relabel_collision_keeps_both :
  node_ids (relabel (<["A" := "C"]> {["B" := "C"]}) (loadGraphData "R" ["A"; "B"]))
  = fmap VString ["R"; "C"; "C"]
  ∧ link_pairs (relabel (<["A" := "C"]> {["B" := "C"]}) (loadGraphData "R" ["A"; "B"]))
    = fmap (prod_map VString VString) [("R", "C"); ("R", "C")].
Proof. split; vm_compute; reflexivity. Qed.

(** Where the substitution is one-to-one on the ids in use, uniqueness of
    node ids and of links survives it. *)
Lemma relabel_injective_keeps_uniqueness m g :
  (∀ i j, translated m i = translated m j → i = j) →
  (NoDup (node_ids g) → NoDup (node_ids (relabel m g)))
  ∧ (NoDup (link_pairs g) → NoDup (link_pairs (relabel m g))).
Proof.
  intros Hinj. rewrite node_ids_relabel, link_pairs_relabel. split.
  - apply NoDup_fmap_2. intros i j. apply Hinj.
  - apply NoDup_fmap_2. intros [s1 t1] [s2 t2] Heq.
    injection Heq as Hs Ht. f_equal; auto.
Qed.

(** C3, amended: [relabel] substitutes ids one for one and merges nothing.
    When two distinct node ids of the graph translate to the same id, the
    result still has one node per original node, so at least two nodes carry
    that id, and one link per original link with both ends substituted, so
    links that collide stay as duplicates. *)
Theorem relabel_collision_is_not_merged (m : gmap string string)
    (g : GraphData) (a b : string) :
  a ∈ node_ids g → b ∈ node_ids g → a ≠ b →
  translated m a = translated m b →
  length (nodes (relabel m g)) = length (nodes g)
  ∧ length (links (relabel m g)) = length (links g)
  ∧ 2 ≤ length (filter (fun i => i = translated m a) (node_ids (relabel m g)))
  ∧ node_ids (relabel m g) = fmap (translated m) (node_ids g)
  ∧ link_pairs (relabel m g)
    = fmap (prod_map (translated m) (translated m)) (link_pairs g).
Proof.
  intros Ha Hb Hab Heq. split; [|split; [|split; [|split]]].
  - cbn. apply length_fmap.
  - cbn. apply length_fmap.
  - rewrite node_ids_relabel. now apply count_collision with (b := b).
  - apply node_ids_relabel.
  - apply link_pairs_relabel.
Qed.

Lemma relabel_collision_is_not_merged_witness :
  length (nodes (relabel (<["A" := "C"]> {["B" := "C"]}) (loadGraphData "R" ["A"; "B"])))
  = length (nodes (loadGraphData "R" ["A"; "B"]))
  ∧ length (links (relabel (<["A" := "C"]> {["B" := "C"]}) (loadGraphData "R" ["A"; "B"])))
    = length (links (loadGraphData "R" ["A"; "B"]))
  ∧ 2 ≤ length (filter (fun i => i = translated (<["A" := "C"]> {["B" := "C"]}) "A")
            (node_ids (relabel (<["A" := "C"]> {["B" := "C"]})
                         (loadGraphData "R" ["A"; "B"]))))
  ∧ node_ids (relabel (<["A" := "C"]> {["B" := "C"]}) (loadGraphData "R" ["A"; "B"]))
    = fmap (translated (<["A" := "C"]> {["B" := "C"]}))
        (node_ids (loadGraphData "R" ["A"; "B"]))
  ∧ link_pairs (relabel (<["A" := "C"]> {["B" := "C"]}) (loadGraphData "R" ["A"; "B"]))
    = fmap (prod_map (translated (<["A" := "C"]> {["B" := "C"]}))
                     (translated (<["A" := "C"]> {["B" := "C"]})))
        (link_pairs (loadGraphData "R" ["A"; "B"])).
Proof.
  apply (relabel_collision_is_not_merged
           (<["A" := "C"]> {["B" := "C"]}) (loadGraphData "R" ["A"; "B"]) "A" "B").
  - by_evaluation.
  - by_evaluation.
  - discriminate.
  - vm_compute. reflexivity.
Defined.

(** ** No dangling link *)

Lemma no_dangling_empty : no_dangling empty_graph.
Proof. intros l Hl. inversion Hl. Qed.

Lemma no_dangling_loadGraphData rootTitle linkedTitles :
  no_dangling (loadGraphData rootTitle linkedTitles).
Proof.
  intros l Hl. rewrite node_ids_loadGraphData. cbn in Hl.
  apply list_elem_of_fmap in Hl as (t & -> & Ht). cbn. split.
  - left.
  - now right.
Qed.

Lemma no_dangling_expand g fromId linkedTitles :
  fromId ∈ node_ids g → no_dangling g →
  no_dangling (expand fromId linkedTitles g).
Proof.
  intros Hfrom Hg.
  destruct (decide (nodesToAdd g linkedTitles = [])) as [H|H].
  - now rewrite expand_unchanged.
  - intros l Hl. rewrite node_ids_expand.
    rewrite expand_grows in Hl by assumption. cbn in Hl.
    apply elem_of_app in Hl as [Hl|Hl].
    + destruct (Hg l Hl). split; apply elem_of_app; now left.
    + apply list_elem_of_fmap in Hl as (t & -> & Ht). cbn. split.
      * apply elem_of_app. now left.
      * apply list_elem_of_filter in Ht as [_ Ht].
        rewrite <- node_ids_expand with (selectedId := fromId).
        now apply expand_covers_titles.
Qed.

Lemma no_dangling_relabel m g : no_dangling g → no_dangling (relabel m g).
Proof.
  intros Hg l Hl. rewrite node_ids_relabel. cbn in Hl.
  apply list_elem_of_fmap in Hl as (l0 & -> & Hl0).
  destruct (Hg l0 Hl0). cbn. split; apply list_elem_of_fmap; eauto.
Qed.

(** On the store alone: each operation keeps the links attached, an [expand]
    provided it starts from a node of the graph. *)
Lemma no_dangling_apply_op g o :
  (∀ fromNodeId ts, o = Expand fromNodeId ts → fromNodeId ∈ node_ids g) →
  no_dangling g → no_dangling (apply_op g o).
Proof.
  intros Hfrom Hg. destruct o as [r ts|f ts|]; cbn.
  - apply no_dangling_loadGraphData.
  - apply no_dangling_expand; eauto.
  - apply no_dangling_empty.
Qed.

(** [expand] tests the target of a new link only: started from an id that is
    no node, it adds links whose source is missing. *)
Example expand_from_absent_node :
  node_ids (apply_ops [Expand "X" ["Y"]]) = ["Y"]
  ∧ link_pairs (apply_ops [Expand "X" ["Y"]]) = [("X", "Y")].
Proof. split; reflexivity. Qed.

Lemma node_ids_expand_incl g fromId linkedTitles i :
  i ∈ node_ids g → i ∈ node_ids (expand fromId linkedTitles g).
Proof. intros Hi. rewrite node_ids_expand. apply elem_of_app. now left. Qed.

(** ** What every graph in the state satisfies *)

Lemma store_unplaced_expand g fromId linkedTitles :
  store_unplaced g → store_unplaced (expand fromId linkedTitles g).
Proof.
  intros Hg.
  destruct (decide (nodesToAdd g linkedTitles = [])) as [H|H].
  - now rewrite expand_unchanged.
  - rewrite expand_grows by assumption. unfold store_unplaced; cbn.
    apply Forall_app. split; [exact Hg|].
    apply Forall_fmap, Forall_true. reflexivity.
Qed.

Lemma weighted_expand g fromId linkedTitles :
  weighted g → weighted (expand fromId linkedTitles g).
Proof.
  intros Hg.
  destruct (decide (nodesToAdd g linkedTitles = [])) as [H|H].
  - now rewrite expand_unchanged.
  - rewrite expand_grows by assumption. unfold weighted; cbn.
    apply Forall_app. split; [exact Hg|].
    apply Forall_fmap, Forall_true. intros t. now left.
Qed.

Lemma seed_unplaced_weighted title_ links_ :
  store_unplaced (loadGraphData title_ links_)
  ∧ weighted (loadGraphData title_ links_).
Proof.
  split.
  - apply Forall_cons. split; [reflexivity|].
    apply Forall_fmap, Forall_true. reflexivity.
  - apply Forall_cons. split; [now right|].
    apply Forall_fmap, Forall_true. intros t. now left.
Qed.

Lemma store_unplaced_relabel m g :
  store_unplaced g → store_unplaced (relabel m g).
Proof.
  unfold store_unplaced; cbn. intros Hg.
  apply Forall_fmap. eapply Forall_impl; [exact Hg|].
  intros n Hn. unfold Simulator.unplaced, Simulator.layout in *. cbn.
  congruence.
Qed.

Lemma weighted_relabel m g : weighted g → weighted (relabel m g).
Proof.
  unfold weighted; cbn. intros Hg.
  apply Forall_fmap. eapply Forall_impl; [exact Hg|]. auto.
Qed.

Lemma typed_node_Some r n :
  typed_node r = Some n →
  id r = VString (id n) ∧ val n = val r
  ∧ Simulator.layout n = Simulator.layout r.
Proof.
  unfold typed_node. destruct (id r) as [i|name]; cbn; [|discriminate].
  intros H. injection H as <-. auto.
Qed.

Lemma typed_endpoint_Some e e' :
  typed_endpoint e = Some e' → getId e = VString (getId e').
Proof.
  destruct e as [v|r]; cbn.
  - destruct v as [i|name]; cbn; [|discriminate]. intros H. now injection H as <-.
  - destruct (typed_node r) as [n|] eqn:Hn; cbn; [|discriminate].
    intros H. injection H as <-. cbn. now apply typed_node_Some in Hn as [? _].
Qed.

Lemma typed_link_Some r l :
  typed_link r = Some l → link_pair r = prod_map VString VString (link_pair l).
Proof.
  unfold typed_link.
  destruct (typed_endpoint (source r)) as [s|] eqn:Hs; cbn; [|discriminate].
  destruct (typed_endpoint (target r)) as [t|] eqn:Ht; cbn; [|discriminate].
  intros H. injection H as <-. unfold link_pair; cbn.
  now rewrite (typed_endpoint_Some _ _ Hs), (typed_endpoint_Some _ _ Ht).
Qed.

Lemma typed_Some raw g :
  typed raw = Some g →
  Forall2 (fun r n => typed_node r = Some n) (nodes raw) (nodes g)
  ∧ Forall2 (fun r l => typed_link r = Some l) (links raw) (links g).
Proof.
  unfold typed. intros H.
  destruct (mapM typed_node (nodes raw)) as [ns|] eqn:Hn; cbn in H; [|discriminate].
  destruct (mapM typed_link (links raw)) as [ls|] eqn:Hl; cbn in H; [|discriminate].
  injection H as <-. cbn. split; now apply mapM_Some.
Qed.

Lemma typed_ids raw g :
  typed raw = Some g →
  node_ids raw = fmap VString (node_ids g)
  ∧ link_pairs raw = fmap (prod_map VString VString) (link_pairs g).
Proof.
  intros H. apply typed_Some in H as [Hn Hl]. unfold node_ids, link_pairs. split.
  - induction Hn as [|r n rs ns Hrn _ IH]; [reflexivity|].
    rewrite !fmap_cons, IH. f_equal. now apply typed_node_Some in Hrn as [? _].
  - induction Hl as [|r l rs ls Hrl _ IH]; [reflexivity|].
    rewrite !fmap_cons, IH. f_equal. now apply typed_link_Some.
Qed.

Lemma typed_unplaced_weighted raw g :
  typed raw = Some g → store_unplaced raw → weighted raw →
  store_unplaced g ∧ weighted g.
Proof.
  intros H. apply typed_Some in H as [Hn _]. unfold store_unplaced, weighted.
  induction Hn as [|r n rs ns Hrn _ IH]; intros Hu Hw; [split; constructor|].
  apply Forall_cons in Hu as [Hu Hus]. apply Forall_cons in Hw as [Hw Hws].
  destruct (IH Hus Hws) as [IHu IHw].
  apply typed_node_Some in Hrn as (_ & Hval & Hlay).
  split; constructor; auto.
  - unfold Simulator.unplaced in *. congruence.
  - now rewrite Hval.
Qed.

Lemma Forall_list_delete {A} (P : A → Prop) (l : list A) (k : nat) :
  Forall P l → Forall P (delete k l).
Proof.
  intros H. revert k. induction H as [|a l Ha Hl IH]; intros k; [constructor|].
  destruct k; cbn; [assumption|]. constructor; auto.
Qed.

Lemma app_invariant_initial : app_invariant initial.
Proof. repeat split; constructor. Qed.

Lemma app_invariant_handle a e : app_invariant a → app_invariant (handle a e).
Proof.
  intros (Hg & Hp). unfold handle.
  destruct (mounted a); [|exact (conj Hg Hp)].
  destruct e as [title_|k answer| |k answer|node| | |k answer|].
  - unfold handleSearch. case_decide; exact (conj Hg Hp).
  - unfold handleSearch_resume.
    destruct (pendingSearches a !! k) as [title_|]; [|exact (conj Hg Hp)].
    destruct answer as [ls|]; [|exact (conj Hg Hp)].
    split; [apply seed_unplaced_weighted|exact Hp].
  - unfold toggleLang. case_decide; [|exact (conj Hg Hp)].
    split; [exact Hg|]. cbn. apply Forall_app. split; [exact Hp|].
    apply Forall_singleton. exact Hg.
  - unfold toggleLang_resume.
    destruct (pendingToggles a !! k) as [[g0 targetLang]|] eqn:Hk;
      [|exact (conj Hg Hp)].
    pose proof (Forall_list_delete _ _ k Hp) as Hp'.
    destruct (proj1 (Forall_forall _ _) Hp _ (list_elem_of_lookup_2 _ _ _ Hk))
      as [Hu0 Hw0]. cbn [fst] in Hu0, Hw0.
    destruct answer as [m|]; [|exact (conj Hg Hp')].
    cbv zeta.
    destruct (typed (relabel m g0)) as [g'|] eqn:Ht;
      [|destruct (root_is_string (relabel m g0)); exact (conj Hg Hp')].
    split; [|exact Hp'].
    apply (typed_unplaced_weighted _ _ Ht).
    + now apply store_unplaced_relabel.
    + now apply weighted_relabel.
  - case_decide; exact (conj Hg Hp).
  - exact (conj Hg Hp).
  - unfold handleExpandNode. destruct (selectedNode a); exact (conj Hg Hp).
  - unfold handleExpandNode_resume.
    destruct (pendingExpands a !! k) as [sel|]; [|exact (conj Hg Hp)].
    destruct answer as [ls|]; [|exact (conj Hg Hp)].
    destruct Hg as [Hu Hw]. split; [|exact Hp].
    split; [now apply store_unplaced_expand|now apply weighted_expand].
  - split; [split; constructor|exact Hp].
Qed.

Lemma run_snoc events e : run (events ++ [e]) = handle (run events) e.
Proof. unfold run. now rewrite foldl_app. Qed.

Lemma app_invariant_run events : app_invariant (run events).
Proof.
  induction events as [|e events IH] using rev_ind.
  - apply app_invariant_initial.
  - rewrite run_snoc. now apply app_invariant_handle.
Qed.

(** ** A link whose source is no node *)

(** C4 does not hold of the code.  [handleExpandNode] fixes the selected
    node before it awaits the links and applies its updater to the graph
    that is there afterwards, and the updater tests the target of a new
    link only.  Search "A", whose links are "B"; select "B" and press
    Expand; press Reset before the links of "B" arrive; they arrive as "C":
    the graph is the node "C" and the link from "B" to "C", and "B" is no
    node. *)
Theorem stale_expand_leaves_dangling_link :
  node_ids (graphData (run
    [Search "A"; SearchResolved 0 (Some ["B"]); NodeClick (node_lit "B" 1%Q);
     ExpandNode; Reset; ExpandResolved 0 (Some ["C"])])) = ["C"]
  ∧ link_pairs (graphData (run
      [Search "A"; SearchResolved 0 (Some ["B"]); NodeClick (node_lit "B" 1%Q);
       ExpandNode; Reset; ExpandResolved 0 (Some ["C"])])) = [("B", "C")]
  ∧ ¬ no_dangling (graphData (run
        [Search "A"; SearchResolved 0 (Some ["B"]); NodeClick (node_lit "B" 1%Q);
         ExpandNode; Reset; ExpandResolved 0 (Some ["C"])])).
Proof.
  split; [reflexivity|]. split; [reflexivity|].
  intros Hnd. destruct (Hnd (link_lit "B" "C")) as [Hsrc _].
  - vm_compute. apply list_elem_of_here.
  - vm_compute in Hsrc. apply elem_of_cons in Hsrc as [Hsrc|Hsrc];
      [discriminate|inversion Hsrc].
Qed.

(** The same with a graph on display: a new search is committed between the
    click on Expand and the arrival of the links. *)
Example stale_expand_after_new_search :
  appState (run
    [Search "A"; SearchResolved 0 (Some ["B"]); NodeClick (node_lit "B" 1%Q);
     ExpandNode; Search "X"; SearchResolved 0 (Some ["Y"]);
     ExpandResolved 0 (Some ["C"])]) = VIEWING
  ∧ node_ids (graphData (run
      [Search "A"; SearchResolved 0 (Some ["B"]); NodeClick (node_lit "B" 1%Q);
       ExpandNode; Search "X"; SearchResolved 0 (Some ["Y"]);
       ExpandResolved 0 (Some ["C"])])) = ["X"; "Y"; "C"]
  ∧ link_pairs (graphData (run
      [Search "A"; SearchResolved 0 (Some ["B"]); NodeClick (node_lit "B" 1%Q);
       ExpandNode; Search "X"; SearchResolved 0 (Some ["Y"]);
       ExpandResolved 0 (Some ["C"])])) = [("X", "Y"); ("B", "C")].
Proof. repeat split. Qed.

(** ** The simulator after an expand *)



(** ** The constants of the forces *)

Lemma count_nonneg (n : nat) : (0 <= inject_Z (Z.of_nat n))%Q.
Proof. change 0%Q with (inject_Z 0). rewrite <- Zle_Qle. lia. Qed.

Lemma count_from (k n : nat) :
  (inject_Z (Z.of_nat k) <= inject_Z (Z.of_nat (k + n)))%Q.
Proof. rewrite <- Zle_Qle. lia. Qed.

(** C8: for every node count the link distance lies in [100, 600] and is the
    clamped value of 100 + 0.8 N, the charge strength lies in [-2000, -300]
    and is the clamped value of -300 - 3 N; both stay at their bound once
    they reach it (from 625 and from 567 nodes on) and start at 100 and
    -300. *)
Theorem physics_constants_are_clamped (N k : nat) :
  (100 <= Simulator.dynamicLinkDistance N
   ∧ Simulator.dynamicLinkDistance N <= 600
   ∧ Simulator.dynamicLinkDistance N
     == Simulator.clamp (100 + 0.8 * inject_Z (Z.of_nat N)) 100 600
   ∧ -2000 <= Simulator.dynamicChargeStrength N
   ∧ Simulator.dynamicChargeStrength N <= -300
   ∧ Simulator.dynamicChargeStrength N
     == Simulator.clamp (-300 - 3 * inject_Z (Z.of_nat N)) (-2000) (-300)
   ∧ Simulator.dynamicLinkDistance (625 + k) == 600
   ∧ Simulator.dynamicChargeStrength (567 + k) == -2000
   ∧ Simulator.dynamicLinkDistance 0 == 100
   ∧ Simulator.dynamicChargeStrength 0 == -300)%Q.
Proof.
  pose proof (count_nonneg N) as HN.
  unfold Simulator.dynamicLinkDistance, Simulator.dynamicChargeStrength,
    Simulator.clamp.
  repeat apply conj.
  - apply Q.min_glb; [discriminate|lra].
  - apply Q.le_min_l.
  - rewrite Q.max_r.
    + apply Q.min_compat; [reflexivity|ring].
    + apply Q.min_glb; [discriminate|lra].
  - apply Q.le_max_l.
  - apply Q.max_lub; [discriminate|lra].
  - rewrite (Q.min_r (-300)%Q).
    + apply Q.max_compat; [reflexivity|ring].
    + lra.
  - apply Q.min_l. pose proof (count_from 625 k) as Hk.
    change (inject_Z (Z.of_nat 625)) with 625%Q in Hk. lra.
  - apply Q.max_l. pose proof (count_from 567 k) as Hk.
    change (inject_Z (Z.of_nat 567)) with 567%Q in Hk. lra.
  - reflexivity.
  - reflexivity.
Qed.


(** ** Batch translation *)









Section BatchLoop.

Context {World : Type} (fetch : string → World → Response * World).

Lemma batch_loop_turn fuel uniqueTitles i st :
  batch_loop World fetch (S fuel) uniqueTitles i st
  = if decide (i < length uniqueTitles) then
      let chunk := take chunkSize (drop i uniqueTitles) in
      batch_loop World fetch fuel uniqueTitles (i + chunkSize)
        (mkLoop World
           (gather (translations st) (fetch (join "|" chunk) (world st)).1)
           (fetch (join "|" chunk) (world st)).2
           (sent st ++ [(chunk, (fetch (join "|" chunk) (world st)).1)]))
    else st.
Proof.
  cbn [batch_loop]. destruct (decide (i < length uniqueTitles)); [|reflexivity].
  cbv zeta. now destruct (fetch _ (world st)).
Qed.

(** With enough fuel the loop sends the rest of the titles, batch after
    batch, whatever the responses are. *)
Lemma batch_loop_sends_all fuel uniqueTitles i st :
  length uniqueTitles - i ≤ fuel →
  ∃ new,
    sent (batch_loop World fetch fuel uniqueTitles i st) = sent st ++ new
    ∧ concat (fmap fst new) = drop i uniqueTitles
    ∧ Forall (batch_ok fetch) new
    ∧ translations (batch_loop World fetch fuel uniqueTitles i st)
      = foldl gather (translations st) (fmap snd new).
Proof.
  revert i st. induction fuel as [|fuel IH]; intros i st Hfuel.
  - exists []. rewrite app_nil_r, drop_ge by lia. repeat split. constructor.
  - rewrite batch_loop_turn.
    destruct (decide (i < length uniqueTitles)) as [Hlt|Hge].
    + cbv zeta. set (chunk := take chunkSize (drop i uniqueTitles)).
      set (r := fetch (join "|" chunk) (world st)).
      destruct (IH (i + chunkSize)
                  (mkLoop World (gather (translations st) r.1) r.2
                     (sent st ++ [(chunk, r.1)])))
        as (new & Hsent & Hcat & Hok & Htr); [unfold chunkSize; lia|].
      exists ((chunk, r.1) :: new).
      split; [|split; [|split]].
      * rewrite Hsent. cbn [sent]. now rewrite <- app_assoc.
      * rewrite fmap_cons, concat_cons, Hcat. cbn [fst]. unfold chunk.
        rewrite <- drop_drop. apply take_drop.
      * apply Forall_cons. split; [|exact Hok]. split; cbn [fst snd].
        -- unfold chunk. rewrite length_take, length_drop. unfold chunkSize. lia.
        -- exists (world st). reflexivity.
      * rewrite Htr. reflexivity.
    + exists []. rewrite app_nil_r, drop_ge by lia. repeat split. constructor.
Qed.

End BatchLoop.


(** Fifty-two titles, the first request throws: the second batch is still
    sent and its translation is in the result. *)
Example second_batch_survives_first :
  let titles := fmap (fun n => String (Ascii.ascii_of_nat (65 + n)) "") (seq 0 52) in
  let fetch (titlesParam : string) (requestNo : nat) :=
    (if decide (requestNo = 0) then Thrown
     else Json (Some [mkPage "u" (Some ["U"]); mkPage "v" None]),
     S requestNo) in
  let r := getBatchTranslations nat fetch (titles ++ titles) 0 in
  fmap (fun e => length e.1) (sent r) = [50; 2]
  ∧ fmap snd (sent r)
    = [Thrown; Json (Some [mkPage "u" (Some ["U"]); mkPage "v" None])]
  ∧ translations r = {["u" := "U"]}
  ∧ world r = 2.
Proof. repeat split; vm_compute; reflexivity. Qed.

(** * Further properties of the source *)

(** ** expand *)

Lemma expand_appends (g : GraphData) (fromId : string)
    (titles : list string) :
  ∃ newNodes newLinks,
    nodes (expand fromId titles g) = nodes g ++ newNodes
    ∧ links (expand fromId titles g) = links g ++ newLinks
    ∧ Forall (fun n => (id n ∈ titles) ∧ (id n ∉ node_ids g)
                       ∧ val n = Some 1%Q ∧ Simulator.unplaced n) newNodes
    ∧ Forall (fun l => source l = EString fromId
                       ∧ ∃ t, t ∈ titles ∧ target l = EString t) newLinks.
Proof.
  destruct (decide (nodesToAdd g titles = [])) as [H|H].
  - exists [], []. rewrite expand_unchanged by assumption.
    rewrite !app_nil_r. repeat split; constructor.
  - rewrite expand_grows by assumption. eexists _, _.
    split; [reflexivity|]. split; [reflexivity|]. split.
    + apply Forall_fmap, Forall_forall. intros t Ht.
      apply list_elem_of_filter in Ht as [Hn Ht]. now repeat split.
    + apply Forall_fmap, Forall_forall. intros t Ht.
      apply list_elem_of_filter in Ht as [_ Ht]. split; [reflexivity|].
      exists t. now split.
Qed.

(** X1: [expand] only appends.  The nodes and links of the graph it is given
    stay where they are; every node it adds is a linked title that was no
    node id, with weight 1 and no layout; every link it adds goes from the
    selected node to one of the linked titles. *)
Theorem expand_only_appends (g : GraphData) (fromId : string)
    (titles : list string) :
  ∃ newNodes newLinks,
    nodes (expand fromId titles g) = nodes g ++ newNodes
    ∧ links (expand fromId titles g) = links g ++ newLinks
    ∧ Forall (fun n => (id n ∈ titles) ∧ (id n ∉ node_ids g)
                       ∧ val n = Some 1%Q ∧ Simulator.unplaced n) newNodes
    ∧ Forall (fun l => source l = EString fromId
                       ∧ ∃ t, t ∈ titles ∧ target l = EString t) newLinks.
Proof. apply expand_appends. Qed.

(** X2: [expand] returns the graph it was given exactly when every linked
    title is a node id already; one title that is not makes the graph
    grow. *)
Theorem expand_unchanged_iff_no_new_title (g : GraphData) (fromId : string)
    (titles : list string) :
  expand fromId titles g = g ↔ Forall (fun t => t ∈ node_ids g) titles.
Proof.
  rewrite <- nodesToAdd_nil. split; [|apply expand_unchanged].
  intros Heq. destruct (decide (nodesToAdd g titles = [])) as [H|H]; [exact H|].
  exfalso. apply (f_equal (fun g' => length (nodes g'))) in Heq.
  rewrite expand_grows in Heq by assumption. cbn in Heq.
  rewrite length_app, <- nodesToAdd_new_titles in Heq.
  destruct (nodesToAdd g titles); [contradiction|]. cbn in Heq. lia.
Qed.

(** X3: the second filter of [handleExpandNode], which keeps a link only if
    its target is a new node or a node of the graph, never removes a link:
    the links it lets through are all the links that passed the key test. *)
Theorem second_filter_rejects_nothing (g : GraphData) (fromId : string)
    (titles : list string) :
  safeLinksToAdd g fromId titles = linksToAdd g fromId titles
  ∧ length (safeLinksToAdd g fromId titles)
    = length (filter (fun t => link_key fromId t ∉ existingLinkKeys g) titles).
Proof.
  rewrite safeLinksToAdd_linksToAdd. split; [reflexivity|].
  rewrite linksToAdd_unkeyed. apply length_fmap.
Qed.

Lemma expand_ids_NoDup g fromId titles :
  NoDup titles → NoDup (node_ids g) →
  NoDup (node_ids (expand fromId titles g)).
Proof.
  intros Hts Hg. rewrite node_ids_expand. apply NoDup_app.
  split; [exact Hg|]. split.
  - intros i Hi Hnew. apply list_elem_of_filter in Hnew as [Hn _]. contradiction.
  - now apply NoDup_filter.
Qed.

(** X4: node ids stay unique.  After any sequence of [seed], [expand] and
    [clear] operations in which no list of linked titles repeats a title and
    no seed lists its own root, no two nodes of the graph have the same
    id. *)
Theorem node_ids_unique_when_titles_distinct (ops : list Op) :
  Forall (fun o => match o with
                   | Seed rootTitle ts => NoDup ts ∧ rootTitle ∉ ts
                   | Expand _ ts => NoDup ts
                   | Clear => True
                   end) ops →
  NoDup (node_ids (apply_ops ops)).
Proof.
  induction ops as [|o ops IH] using rev_ind; intros Hops.
  - apply NoDup_nil_2.
  - apply Forall_app in Hops as [Hops Ho]. apply Forall_inv in Ho.
    rewrite apply_ops_snoc.
    destruct o as [rootTitle ts|fromNodeId ts|]; unfold apply_op.
    + rewrite node_ids_loadGraphData. apply NoDup_cons. tauto.
    + apply expand_ids_NoDup; auto.
    + apply NoDup_nil_2.
Qed.

Lemma node_ids_unique_when_titles_distinct_witness :
  NoDup (node_ids (apply_ops
    [Seed "Albert Einstein" ["Physics"; "Nobel Prize"; "Germany"];
     Expand "Physics" ["Quantum Mechanics"; "Germany"]])).
Proof.
  apply node_ids_unique_when_titles_distinct.
  apply Forall_cons. split; [split; by_evaluation|].
  apply Forall_cons. split; [by_evaluation|]. apply Forall_nil_2.
Defined.

Lemma link_key_hyphen_free s t s' t' :
  has_hyphen s = false → has_hyphen s' = false →
  link_key s t = link_key s' t' → s = s' ∧ t = t'.
Proof.
  unfold link_key. revert s'.
  induction s as [|c s IH]; intros [|c' s'] Hs Hs' Heq; simpl in *.
  - injection Heq as Heq. auto.
  - injection Heq as Hc _. subst c'. discriminate.
  - injection Heq as Hc _. subst c. discriminate.
  - injection Heq as Hc Heq. subst c'.
    apply orb_false_iff in Hs as [_ Hs]. apply orb_false_iff in Hs' as [_ Hs'].
    destruct (IH s' Hs Hs' Heq) as [-> ->]. auto.
Qed.

(** X5: without hyphens the key test is exact.  If neither the selected id
    nor the source of any link of the graph contains [-], an [expand] that
    adds a node also adds the link from the selected node to every linked
    title it is not linked to yet. *)
Theorem expand_adds_every_new_link_without_hyphen (g : GraphData)
    (fromId t : string) (titles : list string) :
  has_hyphen fromId = false →
  (∀ p, p ∈ link_pairs g → has_hyphen p.1 = false) →
  nodesToAdd g titles ≠ [] →
  t ∈ titles → (fromId, t) ∉ link_pairs g →
  (fromId, t) ∈ link_pairs (expand fromId titles g).
Proof.
  intros Hfrom Hsrc Hnew Ht Hnot.
  rewrite expand_grows by assumption. unfold link_pairs; cbn.
  rewrite fmap_app, link_pairs_link_lit. apply elem_of_app. right.
  apply list_elem_of_fmap. exists t. split; [reflexivity|].
  apply list_elem_of_filter. split; [|exact Ht].
  intros Hkey. apply elem_of_existingLinkKeys in Hkey as ([s' t'] & Hp & Heq).
  cbn in Heq. apply link_key_hyphen_free in Heq as [-> ->]; auto.
  apply (Hsrc _ Hp).
Qed.

Lemma expand_adds_every_new_link_without_hyphen_witness :
  ("Physics", "Germany")
  ∈ link_pairs (expand "Physics" ["Quantum Mechanics"; "Germany"]
      (loadGraphData "Albert Einstein" ["Physics"; "Nobel Prize"; "Germany"])).
Proof.
  apply expand_adds_every_new_link_without_hyphen.
  - reflexivity.
  - intros p Hp. cbn in Hp.
    repeat (apply elem_of_cons in Hp as [->|Hp]; [reflexivity|]).
    inversion Hp.
  - discriminate.
  - by_evaluation.
  - by_evaluation.
Defined.

(** ** relabel *)

Lemma translated_no_entry m i :
  m !! i = Some "" ∨ (m !! i = None ∧ i ∉ inherited_names) →
  translated m i = VString i.
Proof.
  unfold translated. intros [-> | [-> Hi]]; [reflexivity|].
  now rewrite decide_False.
Qed.

Lemma fmap_agree {A B} (f h : A → B) (l : list A) :
  (∀ a, a ∈ l → f a = h a) → fmap f l = fmap h l.
Proof.
  intros H. induction l as [|a l IH]; [reflexivity|].
  rewrite !fmap_cons, H by left. f_equal. apply IH.
  intros b Hb. apply H. now right.
Qed.

Lemma link_pair_in_ids {I : Type} (g : GraphData_ I) p :
  no_dangling g → p ∈ link_pairs g → p.1 ∈ node_ids g ∧ p.2 ∈ node_ids g.
Proof.
  intros Hg Hp. apply list_elem_of_fmap in Hp as (l & -> & Hl). now apply Hg.
Qed.

Lemma relabel_keeps_ids m g :
  (∀ i, i ∈ node_ids g → translated m i = VString i) →
  no_dangling g →
  node_ids (relabel m g) = fmap VString (node_ids g)
  ∧ link_pairs (relabel m g) = fmap (prod_map VString VString) (link_pairs g).
Proof.
  intros Hm Hg. rewrite node_ids_relabel, link_pairs_relabel. split.
  - apply fmap_agree. exact Hm.
  - apply fmap_agree. intros [s t] Hp.
    destruct (link_pair_in_ids g _ Hg Hp) as [Hs Ht]. cbn in *.
    now rewrite !Hm.
Qed.

(** X6: ids without a usable translation stay.  If for every node id of a
    graph without dangling links the map has the empty string, or has no
    entry while the id is not the name of a member every object inherits,
    [relabel] leaves the node ids and the (source, target) pairs of the links
    as they are. *)
Theorem relabel_without_translation_keeps_ids (m : gmap string string)
    (g : GraphData) :
  (∀ i, i ∈ node_ids g →
        m !! i = Some "" ∨ (m !! i = None ∧ i ∉ inherited_names)) →
  no_dangling g →
  node_ids (relabel m g) = fmap VString (node_ids g)
  ∧ link_pairs (relabel m g) = fmap (prod_map VString VString) (link_pairs g).
Proof.
  intros Hm Hg. apply relabel_keeps_ids; [|exact Hg].
  intros i Hi. apply translated_no_entry. auto.
Qed.

Lemma relabel_without_translation_keeps_ids_witness :
  node_ids (relabel {["Berlin" := "Berlin (ville)"]}
              (loadGraphData "Physics" ["Energy"]))
  = fmap VString (node_ids (loadGraphData "Physics" ["Energy"]))
  ∧ link_pairs (relabel {["Berlin" := "Berlin (ville)"]}
                  (loadGraphData "Physics" ["Energy"]))
    = fmap (prod_map VString VString)
        (link_pairs (loadGraphData "Physics" ["Energy"])).
Proof.
  apply relabel_without_translation_keeps_ids.
  - intros i Hi. right. rewrite node_ids_loadGraphData in Hi.
    repeat (apply elem_of_cons in Hi as [->|Hi];
            [split; [reflexivity|by_evaluation]|]).
    inversion Hi.
  - apply no_dangling_loadGraphData.
Defined.

(** An id that names an inherited member, and has no entry, does not
    stay: the root "constructor" becomes a value that is no string. *)
Example relabel_constructor :
  node_ids (relabel ∅ (loadGraphData "constructor" ["Energy"]))
  = [VInherited "constructor"; VString "Energy"]
  ∧ typed (relabel ∅ (loadGraphData "constructor" ["Energy"])) = None.
Proof. split; vm_compute; reflexivity. Qed.

(** In the application that toggle is the last thing that happens. *)
Example toggle_on_constructor_unmounts :
  mounted (run [Search "constructor"; SearchResolved 0 (Some ["Energy"]);
                ToggleLang; ToggleResolved 0 (Some ∅)]) = false
  ∧ lang (run [Search "constructor"; SearchResolved 0 (Some ["Energy"]);
               ToggleLang; ToggleResolved 0 (Some ∅)]) = fr.
Proof. split; vm_compute; reflexivity. Qed.

(** X7: a translation that is one-to-one on the node ids of a graph without
    dangling links keeps what is unique unique: distinct node ids stay
    distinct and distinct links stay distinct. *)
Theorem relabel_one_to_one_keeps_uniqueness (m : gmap string string)
    (g : GraphData) :
  (∀ i j, i ∈ node_ids g → j ∈ node_ids g →
          translated m i = translated m j → i = j) →
  no_dangling g →
  (NoDup (node_ids g) → NoDup (node_ids (relabel m g)))
  ∧ (NoDup (link_pairs g) → NoDup (link_pairs (relabel m g))).
Proof.
  intros Hinj Hg. rewrite node_ids_relabel, link_pairs_relabel. split.
  - apply NoDup_fmap_2_strong. exact Hinj.
  - apply NoDup_fmap_2_strong. intros [s1 t1] [s2 t2] H1 H2 Heq.
    destruct (link_pair_in_ids g _ Hg H1), (link_pair_in_ids g _ Hg H2).
    injection Heq as Hs Ht. cbn in *. f_equal; auto.
Qed.

Lemma relabel_one_to_one_keeps_uniqueness_witness :
  (NoDup (node_ids (loadGraphData "Physics" ["Energy"])) →
   NoDup (node_ids (relabel {["Physics" := "Physique"]}
                      (loadGraphData "Physics" ["Energy"]))))
  ∧ (NoDup (link_pairs (loadGraphData "Physics" ["Energy"])) →
     NoDup (link_pairs (relabel {["Physics" := "Physique"]}
                          (loadGraphData "Physics" ["Energy"])))).
Proof.
  apply relabel_one_to_one_keeps_uniqueness.
  - intros i j Hi Hj. rewrite node_ids_loadGraphData in Hi, Hj.
    repeat (apply elem_of_cons in Hi as [->|Hi]);
      repeat (apply elem_of_cons in Hj as [->|Hj]);
      try (inversion Hi; fail); try (inversion Hj; fail);
      vm_compute; congruence.
  - apply no_dangling_loadGraphData.
Defined.

Lemma typed_exists (raw : GraphData_ Value) :
  (∀ v, v ∈ node_ids raw → ∃ s, v = VString s) →
  no_dangling raw →
  ∃ g, typed raw = Some g.
Proof.
  intros Hids Hd.
  assert (∀ r, r ∈ nodes raw → is_Some (typed_node r)) as Hnode.
  { intros r Hr. destruct (Hids (id r)) as [s Hs].
    - apply list_elem_of_fmap. eauto.
    - unfold typed_node. rewrite Hs. cbn. eauto. }
  assert (∀ e, getId e ∈ node_ids raw → is_Some (typed_endpoint e)) as Hend.
  { intros e He. destruct (Hids _ He) as [s Hs]. destruct e as [v|r]; cbn in *.
    - subst v. cbn. eauto.
    - unfold typed_node. rewrite Hs. cbn. eauto. }
  assert (is_Some (mapM typed_node (nodes raw))) as [ns Hns]
    by (apply mapM_is_Some, Forall_forall; exact Hnode).
  assert (is_Some (mapM typed_link (links raw))) as [ls Hls].
  { apply mapM_is_Some, Forall_forall. intros l Hl. destruct (Hd l Hl) as [Hs Ht].
    destruct (Hend _ Hs) as [s' Hs'], (Hend _ Ht) as [t' Ht'].
    cbn. unfold typed_link. rewrite Hs', Ht'. cbn. eauto. }
  exists (mkGraphData ns ls). unfold typed. now rewrite Hns, Hls.
Qed.

Lemma fmap_back {A B C D} (F : A → C) (G : B → C) (H : B → D) (K : A → D)
    (l : list A) (l1 : list B) :
  (∀ a b, a ∈ l → F a = G b → H b = K a) →
  fmap F l = fmap G l1 → fmap H l1 = fmap K l.
Proof.
  revert l1. induction l as [|a l IH]; intros [|b l1] Hab Heq;
    try discriminate; [reflexivity|].
  rewrite !fmap_cons in *. injection Heq as Hhd Htl. f_equal.
  - apply Hab; [left|exact Hhd].
  - apply IH; [|exact Htl]. intros a' b' Ha'. apply Hab. now right.
Qed.

(** X23: translating back restores the ids.  If the first map gives every
    node id of a graph without dangling links a string, and the second map
    translates that string back to the id, then the graph relabelled with
    the first map is a graph of strings again, and relabelling it with the
    second map gives the node ids and the (source, target) pairs the graph
    started with. *)
Theorem relabel_there_and_back (m1 m2 : gmap string string) (g : GraphData) :
  (∀ i, i ∈ node_ids g →
        ∃ j, translated m1 i = VString j ∧ translated m2 j = VString i) →
  no_dangling g →
  ∃ g1,
    typed (relabel m1 g) = Some g1
    ∧ node_ids (relabel m2 g1) = fmap VString (node_ids g)
    ∧ link_pairs (relabel m2 g1)
      = fmap (prod_map VString VString) (link_pairs g).
Proof.
  intros Hback Hg.
  assert (∀ i b, i ∈ node_ids g → translated m1 i = VString b →
                 translated m2 b = VString i) as Hb.
  { intros i b Hi Hib. destruct (Hback i Hi) as (j & Hj & Hji).
    rewrite Hj in Hib. now injection Hib as <-. }
  destruct (typed_exists (relabel m1 g)) as [g1 Hg1].
  - intros v Hv. rewrite node_ids_relabel in Hv.
    apply list_elem_of_fmap in Hv as (i & -> & Hi).
    destruct (Hback i Hi) as (j & -> & _). eauto.
  - now apply no_dangling_relabel.
  - exists g1. split; [exact Hg1|].
    apply typed_ids in Hg1 as [Hn Hl].
    rewrite node_ids_relabel in Hn. rewrite link_pairs_relabel in Hl.
    rewrite node_ids_relabel, link_pairs_relabel. split.
    + eapply fmap_back; [|exact Hn]. intros a b Ha. now apply Hb.
    + eapply fmap_back; [|exact Hl]. intros [s t] [s' t'] Hp Heq.
      destruct (link_pair_in_ids g _ Hg Hp) as [Hs Ht].
      injection Heq as Hs' Ht'. cbn in *.
      now rewrite (Hb _ _ Hs Hs'), (Hb _ _ Ht Ht').
Qed.

Lemma relabel_there_and_back_witness :
  ∃ g1,
    typed (relabel {["Physics" := "Physique"]}
             (loadGraphData "Physics" ["Energy"])) = Some g1
    ∧ node_ids (relabel {["Physique" := "Physics"]} g1)
      = fmap VString (node_ids (loadGraphData "Physics" ["Energy"]))
    ∧ link_pairs (relabel {["Physique" := "Physics"]} g1)
      = fmap (prod_map VString VString)
          (link_pairs (loadGraphData "Physics" ["Energy"])).
Proof.
  apply relabel_there_and_back.
  - intros i Hi. rewrite node_ids_loadGraphData in Hi.
    apply elem_of_cons in Hi as [->|Hi];
      [exists "Physique"; split; reflexivity|].
    apply elem_of_cons in Hi as [->|Hi];
      [exists "Energy"; split; reflexivity|].
    inversion Hi.
  - apply no_dangling_loadGraphData.
Defined.

(** ** The simulator *)

Lemma node_radius_at_least_20 d : (20 <= node_radius d)%Q.
Proof.
  unfold node_radius. destruct (val d) as [v|]; [|discriminate].
  destruct (Qeq_dec v 0); [discriminate|]. apply Q.le_max_l.
Qed.

Lemma node_radius_weight_1_or_2 d :
  val d = Some 1%Q ∨ val d = Some 2%Q → (node_radius d == 20)%Q.
Proof. unfold node_radius. intros [-> | ->]; reflexivity. Qed.

(** X12: the weight makes no difference to the size of a bubble.  The
    radius a node is first drawn with is never below 20, and for every node
    of a graph the handlers can build, the root of weight 2 as well as the
    others of weight 1, it is exactly 20. *)
Theorem every_bubble_has_radius_20 (events : list Event) (d : GraphNode) :
  (20 <= node_radius d)%Q
  ∧ Forall (fun n => (node_radius n == 20)%Q)
      (Simulator.sim_nodes (Simulator.initGraph (graphData (run events)))).
Proof.
  split; [apply node_radius_at_least_20|].
  cbn [Simulator.initGraph Simulator.sim_nodes]. rewrite list_fmap_id.
  destruct (app_invariant_run events) as [[_ Hw] _].
  eapply Forall_impl; [exact Hw|]. intros n Hn.
  now apply node_radius_weight_1_or_2.
Qed.

Lemma count_le (n m : nat) :
  n ≤ m → (inject_Z (Z.of_nat n) <= inject_Z (Z.of_nat m))%Q.
Proof. intros H. rewrite <- Zle_Qle. lia. Qed.

(** X13: a larger graph never gets shorter links or weaker repulsion: the
    link distance does not decrease and the charge strength does not
    increase when the number of nodes grows. *)
Theorem physics_constants_are_monotone (N M : nat) :
  N ≤ M →
  (Simulator.dynamicLinkDistance N <= Simulator.dynamicLinkDistance M
   ∧ Simulator.dynamicChargeStrength M <= Simulator.dynamicChargeStrength N)%Q.
Proof.
  intros H. apply count_le in H.
  unfold Simulator.dynamicLinkDistance, Simulator.dynamicChargeStrength. split.
  - apply Q.min_le_compat_l. lra.
  - apply Q.max_le_compat_l. lra.
Qed.

Lemma physics_constants_are_monotone_witness :
  (Simulator.dynamicLinkDistance 4 <= Simulator.dynamicLinkDistance 700
   ∧ Simulator.dynamicChargeStrength 700 <= Simulator.dynamicChargeStrength 4)%Q.
Proof. apply physics_constants_are_monotone. lia. Defined.



(** X15: the drag handlers write the pin of the dragged node and nothing
    else.  After [dragstarted] and [dragged] on the [i]-th node, that node
    alone differs from before, by its pin, which is at the pointer; after
    [dragended] it differs, if at all, by having no pin.  The handlers leave
    ids, weights, positions, the other nodes, the links and the constants of
    the forces as they were. *)
Theorem drag_pins_only_the_dragged_node (s : Simulator.Simulation) (i : nat)
    (d : GraphNode) (event_x event_y : number) :
  Simulator.sim_nodes s !! i = Some d →
  Simulator.on_node i (Simulator.dragged event_x event_y)
    (Simulator.on_node i Simulator.dragstarted s)
  = Simulator.mkSimulation
      (<[i := mkGraphNode (id d) (group d) (val d) (index d) (x d) (y d)
                (vx d) (vy d) (Some event_x) (Some event_y)]>
         (Simulator.sim_nodes s))
      (Simulator.sim_links s) (Simulator.linkDistance s)
      (Simulator.chargeStrength s) (Simulator.isHighCount s)
  ∧ Simulator.on_node i Simulator.dragended
      (Simulator.on_node i (Simulator.dragged event_x event_y)
         (Simulator.on_node i Simulator.dragstarted s))
    = Simulator.mkSimulation
        (<[i := mkGraphNode (id d) (group d) (val d) (index d) (x d) (y d)
                  (vx d) (vy d) None None]>
           (Simulator.sim_nodes s))
        (Simulator.sim_links s) (Simulator.linkDistance s)
        (Simulator.chargeStrength s) (Simulator.isHighCount s).
Proof.
  intros Hd. unfold Simulator.on_node; cbn.
  split; f_equal; apply list_eq; intros j;
    (destruct (decide (j = i)) as [->|Hne];
     [ rewrite !list_lookup_alter_eq, Hd, list_lookup_insert_eq;
       [reflexivity|now apply lookup_lt_Some in Hd]
     | now rewrite !list_lookup_alter_ne, list_lookup_insert_ne by congruence ]).
Qed.

Lemma drag_pins_only_the_dragged_node_witness :
  fmap (fun n => (id n, fx n, fy n))
    (Simulator.sim_nodes
       (Simulator.on_node 1 (Simulator.dragged 10%Q 20%Q)
          (Simulator.on_node 1 Simulator.dragstarted
             (Simulator.initGraph (loadGraphData "Physics" ["Energy"])))))
  = [("Physics", None, None); ("Energy", Some 10%Q, Some 20%Q)].
Proof.
  rewrite (proj1 (drag_pins_only_the_dragged_node
                    (Simulator.initGraph (loadGraphData "Physics" ["Energy"]))
                    1 (node_lit "Energy" 1%Q) 10%Q 20%Q eq_refl)).
  reflexivity.
Defined.

(** ** Batch translation *)

Lemma turns_left (n i : nat) :
  i < n → 1 + (n - (i + 50) + 49) / 50 = (n - i + 49) / 50.
Proof.
  intros H.
  assert (n - i + 49 = (n - (i + 50) + 49) + 1 * 50 ∨ n - i < 50)
    as [->|Hlast] by lia.
  - rewrite Nat.div_add by lia. lia.
  - replace (n - (i + 50)) with 0 by lia. cbn [Nat.add].
    rewrite (Nat.div_small 49 50) by lia.
    apply (Nat.div_unique _ _ _ (n - i - 1)); lia.
Qed.

Section BatchSlices.

Context {World : Type} (fetch : string → World → Response * World).

(** The requests of the loop are the consecutive slices of 50 titles. *)
Lemma batch_loop_slices fuel uniqueTitles i st :
  length uniqueTitles - i ≤ fuel →
  ∃ new,
    sent (batch_loop World fetch fuel uniqueTitles i st) = sent st ++ new
    ∧ length new = (length uniqueTitles - i + 49) / 50
    ∧ ∀ k e, new !! k = Some e →
        e.1 = take 50 (drop (i + 50 * k) uniqueTitles).
Proof.
  revert i st. induction fuel as [|fuel IH]; intros i st Hfuel.
  - exists []. rewrite app_nil_r. split; [reflexivity|]. split.
    + cbn [length]. symmetry. apply Nat.div_small. lia.
    + intros k e Hk. inversion Hk.
  - rewrite batch_loop_turn.
    destruct (decide (i < length uniqueTitles)) as [Hlt|Hge].
    + cbv zeta. set (chunk := take chunkSize (drop i uniqueTitles)).
      set (r := fetch (join "|" chunk) (world st)).
      destruct (IH (i + chunkSize)
                  (mkLoop World (gather (translations st) r.1) r.2
                     (sent st ++ [(chunk, r.1)])))
        as (new & Hsent & Hlen & Hslice); [unfold chunkSize; lia|].
      exists ((chunk, r.1) :: new). split; [|split].
      * rewrite Hsent. cbn [sent]. now rewrite <- app_assoc.
      * cbn [length]. rewrite Hlen. unfold chunkSize. now apply turns_left.
      * intros [|k] e Hk; cbn in Hk.
        -- injection Hk as <-. cbn [fst]. unfold chunk, chunkSize.
           now rewrite Nat.mul_0_r, Nat.add_0_r.
        -- rewrite (Hslice k e Hk). unfold chunkSize. do 2 f_equal. lia.
    + exists []. rewrite app_nil_r. split; [reflexivity|]. split.
      * cbn [length]. symmetry. apply Nat.div_small. lia.
      * intros k e Hk. inversion Hk.
Qed.

End BatchSlices.

(** X16: the requests are the consecutive slices of 50.  Whatever the
    provider answers, [getBatchTranslations] sends the number of distinct
    titles divided by 50, rounded up, requests (none for no title), and the
    [k]-th of them carries the distinct titles number [50 k] to
    [50 k + 49]. *)
Theorem requests_are_consecutive_slices (World : Type)
    (fetch : string → World → Response * World) (titles : list string)
    (w : World) :
  length (sent (getBatchTranslations World fetch titles w))
  = (length (set_order ∅ titles) + 49) / 50
  ∧ ∀ k, fmap fst (sent (getBatchTranslations World fetch titles w) !! k)
         = if decide (50 * k < length (set_order ∅ titles))
           then Some (take 50 (drop (50 * k) (set_order ∅ titles)))
           else None.
Proof.
  assert (∃ new, sent (getBatchTranslations World fetch titles w) = new
                 ∧ length new = (length (set_order ∅ titles) + 49) / 50
                 ∧ ∀ k e, new !! k = Some e →
                     e.1 = take 50 (drop (50 * k) (set_order ∅ titles)))
    as (new & -> & Hlen & Hslice).
  { unfold getBatchTranslations.
    destruct (decide (length titles = 0)) as [H0|_].
    - apply length_zero_iff_nil in H0. subst titles. exists [].
      split; [reflexivity|]. split; [reflexivity|]. intros k e Hk. inversion Hk.
    - destruct (batch_loop_slices fetch (length (set_order ∅ titles))
                  (set_order ∅ titles) 0 (mkLoop World ∅ w []))
        as (new & Hsent & Hlen & Hslice); [lia|].
      exists new. cbn in Hsent. rewrite Nat.sub_0_r in Hlen. auto. }
  split; [exact Hlen|]. intros k.
  destruct (new !! k) as [e|] eqn:Hk; cbn.
  - rewrite (Hslice k e Hk). rewrite decide_True; [reflexivity|].
    apply lookup_lt_Some in Hk. rewrite Hlen in Hk.
    destruct (decide (50 * k < length (set_order ∅ titles))) as [|Hge];
      [assumption|].
    assert ((length (set_order ∅ titles) + 49) / 50 < k + 1); [|lia].
    apply Nat.Div0.div_lt_upper_bound. lia.
  - rewrite decide_False; [reflexivity|].
    apply lookup_ge_None in Hk. rewrite Hlen in Hk. intros Hlt.
    assert (k + 1 ≤ (length (set_order ∅ titles) + 49) / 50); [|lia].
    apply Nat.div_le_lower_bound; lia.
Qed.

Lemma stored_from pages m k v :
  foldl store_page m pages !! k = Some v →
  m !! k = Some v
  ∨ ∃ page ts, page ∈ pages ∧ title page = k ∧ langlinks page = Some (v :: ts).
Proof.
  revert m. induction pages as [|p pages IH]; intros m Hk; [now left|].
  cbn in Hk. apply IH in Hk as [Hk|(page & ts & Hin & Ht & Hll)].
  - unfold store_page in Hk.
    destruct (langlinks p) as [[|t ts]|] eqn:Hll; try (now left).
    destruct (decide (title p = k)) as [Heq|Hne].
    + rewrite Heq, lookup_insert_eq in Hk. injection Hk as ->.
      right. exists p, ts. split; [left|auto].
    + rewrite lookup_insert_ne in Hk by assumption. now left.
  - right. exists page, ts. split; [now right|auto].
Qed.

Lemma gathered_from (log : list (list string * Response)) m k v :
  foldl gather m (fmap snd log) !! k = Some v →
  m !! k = Some v
  ∨ ∃ c pages page ts,
      (c, Json (Some pages)) ∈ log ∧ page ∈ pages
      ∧ title page = k ∧ langlinks page = Some (v :: ts).
Proof.
  revert m. induction log as [|[c r] log IH]; intros m Hk; [now left|].
  cbn in Hk. apply IH in Hk as [Hk|(c' & pages & page & ts & Hin & H)].
  - destruct r as [|[pages|]]; cbn in Hk; try (now left).
    apply stored_from in Hk as [Hk|(page & ts & Hin & H)]; [now left|].
    right. exists c, pages, page, ts. split; [left|exact (conj Hin H)].
  - right. exists c', pages, page, ts. split; [now right|exact H].
Qed.

Lemma getBatchTranslations_gathers {World : Type}
    (fetch : string → World → Response * World) titles w :
  translations (getBatchTranslations World fetch titles w)
  = foldl gather ∅ (fmap snd (sent (getBatchTranslations World fetch titles w))).
Proof.
  unfold getBatchTranslations.
  destruct (decide (length titles = 0)); [reflexivity|].
  destruct (batch_loop_sends_all fetch (length (set_order ∅ titles))
              (set_order ∅ titles) 0 (mkLoop World ∅ w []))
    as (new & Hsent & _ & _ & Htr); [lia|].
  cbn in Hsent, Htr. now rewrite Hsent, Htr.
Qed.

(** X17: the result holds nothing the provider did not send.  Every entry
    of the returned map has the title of a page of a request that was
    answered as its key and the first language link of that page as its
    value: a request that throws, an answer without pages and a page without
    language links add nothing. *)
Theorem translations_come_from_answered_requests (World : Type)
    (fetch : string → World → Response * World) (titles : list string)
    (w : World) (k v : string) :
  translations (getBatchTranslations World fetch titles w) !! k = Some v →
  ∃ c pages page ts,
    (c, Json (Some pages)) ∈ sent (getBatchTranslations World fetch titles w)
    ∧ page ∈ pages ∧ title page = k ∧ langlinks page = Some (v :: ts).
Proof.
  rewrite getBatchTranslations_gathers. intros Hk. apply gathered_from in Hk as [Hk|Hk]; [|exact Hk].
  rewrite lookup_empty in Hk. discriminate.
Qed.

Lemma translations_come_from_answered_requests_witness :
  ∃ c pages page ts,
    (c, Json (Some pages))
    ∈ sent (getBatchTranslations nat
              (fun (titlesParam : string) (requestNo : nat) =>
                 (Json (Some [mkPage "Physics" (Some ["Physique"])]), S requestNo))
              ["Physics"] 0)
    ∧ page ∈ pages ∧ title page = "Physics"
    ∧ langlinks page = Some ("Physique" :: ts).
Proof.
  apply translations_come_from_answered_requests. vm_compute. reflexivity.
Defined.

Lemma set_order_fresh seen titles :
  NoDup titles → (∀ t, t ∈ titles → t ∉ seen) → set_order seen titles = titles.
Proof.
  revert seen. induction titles as [|a titles IH]; intros seen Hnd Hfresh;
    [reflexivity|]. cbn.
  apply NoDup_cons in Hnd as [Ha Hnd].
  rewrite decide_False by (apply Hfresh; left). f_equal. apply IH; [exact Hnd|].
  intros t Ht. rewrite elem_of_union, elem_of_singleton.
  intros [->|Hs]; [contradiction|]. apply (Hfresh t); [now right|exact Hs].
Qed.

Lemma set_order_seen seen titles :
  (∀ t, t ∈ titles → t ∈ seen) → set_order seen titles = [].
Proof.
  induction titles as [|a titles IH]; intros Hseen; [reflexivity|]. cbn.
  rewrite decide_True by (apply Hseen; left). apply IH.
  intros t Ht. apply Hseen. now right.
Qed.

Lemma set_order_app seen l1 l2 :
  set_order seen (l1 ++ l2)
  = set_order seen l1 ++ set_order (list_to_set l1 ∪ seen) l2.
Proof.
  revert seen. induction l1 as [|a l1 IH]; intros seen; cbn.
  - f_equal. apply set_eq. intros t.
    rewrite elem_of_union, elem_of_empty. tauto.
  - destruct (decide (a ∈ seen)) as [Ha|Ha]; rewrite IH.
    + do 2 f_equal. apply set_eq. intros t.
      rewrite !elem_of_union, elem_of_singleton. intuition congruence.
    + cbn. do 3 f_equal. apply set_eq. intros t.
      rewrite !elem_of_union, elem_of_singleton. tauto.
Qed.

(** X18: each title is asked for at its first occurrence only.  For titles
    without repetition, followed by any number of repetitions of them, the
    requests carry, one after the other, exactly the titles in their
    order. *)
Theorem repeated_titles_are_sent_once (World : Type)
    (fetch : string → World → Response * World) (titles more : list string)
    (w : World) :
  NoDup titles → (∀ t, t ∈ more → t ∈ titles) →
  concat (fmap fst (sent (getBatchTranslations World fetch (titles ++ more) w)))
  = titles.
Proof.
  intros Hnd Hmore.
  assert (set_order ∅ (titles ++ more) = titles) as Hset.
  { rewrite set_order_app, set_order_fresh, set_order_seen, app_nil_r; auto.
    - intros t Ht. apply elem_of_union. left. apply elem_of_list_to_set. auto.
    - intros t _. apply not_elem_of_empty. }
  unfold getBatchTranslations.
  destruct (decide (length (titles ++ more) = 0)) as [H0|_].
  - apply length_zero_iff_nil, app_eq_nil in H0 as [-> _]. reflexivity.
  - rewrite Hset.
    destruct (batch_loop_sends_all fetch (length titles) titles 0
                (mkLoop World ∅ w []))
      as (new & Hsent & Hcat & _); [lia|].
    cbn in Hsent. now rewrite Hsent, Hcat.
Qed.

Lemma repeated_titles_are_sent_once_witness :
  concat (fmap fst (sent (getBatchTranslations nat
            (fun (titlesParam : string) (requestNo : nat) => (Thrown, S requestNo))
            (["Physics"; "Energy"] ++ ["Energy"; "Physics"; "Energy"]) 0)))
  = ["Physics"; "Energy"].
Proof.
  apply repeated_titles_are_sent_once.
  - by_evaluation.
  - intros t Ht.
    repeat (apply elem_of_cons in Ht as [->|Ht]; [by_evaluation|]).
    inversion Ht.
Defined.

Lemma all_thrown_no_translation {World : Type}
    (fetch : string → World → Response * World) titles w :
  (∀ titlesParam w0, (fetch titlesParam w0).1 = Thrown) →
  translations (getBatchTranslations World fetch titles w) = ∅.
Proof.
  intros Hfail. apply map_eq. intros k. rewrite lookup_empty.
  destruct (translations (getBatchTranslations World fetch titles w) !! k)
    as [v|] eqn:Hk; [exfalso|reflexivity].
  rewrite getBatchTranslations_gathers in Hk.
  apply gathered_from in Hk as [Hk|(c & pages & page & ts & Hin & _)].
  - rewrite lookup_empty in Hk. discriminate.
  - unfold getBatchTranslations in Hin.
    destruct (decide (length titles = 0)); [inversion Hin|].
    destruct (batch_loop_sends_all fetch (length (set_order ∅ titles))
                (set_order ∅ titles) 0 (mkLoop World ∅ w []))
      as (new & Hsent & _ & Hok & _); [lia|].
    cbn in Hsent. rewrite Hsent in Hin.
    apply (proj1 (Forall_forall _ _) Hok) in Hin as [_ [w0 Hw0]].
    cbn in Hw0. rewrite Hfail in Hw0. discriminate.
Qed.

Lemma fmap_inj_list {A B} (f : A → B) (l1 l2 : list A) :
  (∀ a b, f a = f b → a = b) → fmap f l1 = fmap f l2 → l1 = l2.
Proof.
  intros Hf. revert l2. induction l1 as [|a l1 IH]; intros [|b l2] H;
    try discriminate; [reflexivity|].
  rewrite !fmap_cons in H. injection H as Hab H. f_equal; auto.
Qed.

(** X19: when every request fails the language still switches.  If the
    provider throws on every request, a [toggleLang] that was waiting
    commits with an empty map: the language becomes the one fixed at the
    click, the state [VIEWING], nothing is selected, and, when no node id of
    the graph held since the click names a member every object inherits and
    that graph has no dangling link, the graph written has its node ids and
    its (source, target) pairs. *)
Theorem toggle_with_failing_provider_keeps_ids (World : Type)
    (fetch : string → World → Response * World) (a : App) (w : World)
    (k : nat) (graphData_ : GraphData) (targetLang : Language) :
  mounted a = true →
  pendingToggles a !! k = Some (graphData_, targetLang) →
  (∀ titlesParam w0, (fetch titlesParam w0).1 = Thrown) →
  (∀ i, i ∈ node_ids graphData_ → i ∉ inherited_names) →
  no_dangling graphData_ →
  lang (handle a (ToggleResolved k
          (Some (awaited_translations fetch graphData_ w)))) = targetLang
  ∧ appState (handle a (ToggleResolved k
                (Some (awaited_translations fetch graphData_ w)))) = VIEWING
  ∧ mounted (handle a (ToggleResolved k
               (Some (awaited_translations fetch graphData_ w)))) = true
  ∧ selectedNode (handle a (ToggleResolved k
                    (Some (awaited_translations fetch graphData_ w)))) = None
  ∧ node_ids (graphData (handle a (ToggleResolved k
                (Some (awaited_translations fetch graphData_ w)))))
    = node_ids graphData_
  ∧ link_pairs (graphData (handle a (ToggleResolved k
                  (Some (awaited_translations fetch graphData_ w)))))
    = link_pairs graphData_.
Proof.
  intros Hmounted Hk Hfail Hnames Hd.
  unfold handle, toggleLang_resume, awaited_translations.
  rewrite Hmounted, Hk, all_thrown_no_translation by assumption.
  destruct (relabel_keeps_ids ∅ graphData_) as [Hn Hl]; [|exact Hd|].
  { intros i Hi. apply translated_no_entry. right.
    split; [apply lookup_empty|auto]. }
  destruct (typed_exists (relabel ∅ graphData_)) as [g' Hg'].
  - intros v Hv. rewrite Hn in Hv.
    apply list_elem_of_fmap in Hv as (i & -> & _). eauto.
  - now apply no_dangling_relabel.
  - rewrite Hg'. cbn. rewrite Hmounted.
    apply typed_ids in Hg' as [Hn' Hl']. rewrite Hn in Hn'. rewrite Hl in Hl'.
    repeat split.
    + symmetry. apply (fmap_inj_list VString); [|exact Hn'].
      intros i j H. now injection H.
    + symmetry. apply (fmap_inj_list (prod_map VString VString)); [|exact Hl'].
      intros [s t] [s' t'] H. now injection H as -> ->.
Qed.

Lemma toggle_with_failing_provider_keeps_ids_witness :
  node_ids (graphData (handle
      (run [Search "Physics"; SearchResolved 0 (Some ["Energy"]); ToggleLang])
      (ToggleResolved 0
         (Some (awaited_translations
                  (fun (titlesParam : string) (requestNo : nat) =>
                     (Thrown, S requestNo))
                  (loadGraphData "Physics" ["Energy"]) 0)))))
  = node_ids (loadGraphData "Physics" ["Energy"]).
Proof.
  refine (proj1 (proj2 (proj2 (proj2 (proj2
    (toggle_with_failing_provider_keeps_ids nat _
       (run [Search "Physics"; SearchResolved 0 (Some ["Energy"]); ToggleLang])
       0 0 (loadGraphData "Physics" ["Energy"]) fr _ _ _ _ _)))))).
  - reflexivity.
  - reflexivity.
  - reflexivity.
  - intros i Hi. rewrite node_ids_loadGraphData in Hi.
    repeat (apply elem_of_cons in Hi as [->|Hi]; [by_evaluation|]).
    inversion Hi.
  - apply no_dangling_loadGraphData.
Defined.

(** ** Article URLs *)

Example wiki_url_albert_einstein :
  getWikiUrl "Albert Einstein" en = "https://en.wikipedia.org/wiki/Albert_Einstein"
  ∧ getWikiUrl "C/C++ (a?)" fr = "https://fr.wikipedia.org/wiki/C%2FC%2B%2B_(a%3F)".
Proof. split; reflexivity. Qed.

Lemma percent_encoded_safe c :
  forallb url_safe (String.list_ascii_of_string (percent_encoded c)) = true.
Proof. destruct c as [[] [] [] [] [] [] [] []]; reflexivity. Qed.

Lemma chars_append s1 s2 :
  String.list_ascii_of_string (s1 ++ s2)%string
  = String.list_ascii_of_string s1 ++ String.list_ascii_of_string s2.
Proof. induction s1 as [|c s1 IH]; simpl; [reflexivity|now f_equal]. Qed.

Lemma encodeURIComponent_safe s :
  forallb url_safe (String.list_ascii_of_string (encodeURIComponent s)) = true.
Proof.
  induction s as [|c s IH]; [reflexivity|]. cbn [encodeURIComponent].
  rewrite chars_append, forallb_app, IH, andb_true_r.
  destruct (unreserved c) eqn:Hc.
  - cbn. unfold url_safe. now rewrite Hc.
  - apply percent_encoded_safe.
Qed.

(** X20: the path of an article URL is escaped.  Whatever the title, every
    character that [getWikiUrl] puts after [/wiki/] is a letter, a digit, one
    of [- _ . ! ~ * ' ( )] or the [%] of an escape; no space, slash, question
    mark or hash is among them. *)
Theorem wiki_url_path_is_escaped (title_ : string) (l : Language) :
  ∃ path,
    getWikiUrl title_ l
    = ("https://" ++ language_code l ++ ".wikipedia.org/wiki/" ++ path)%string
    ∧ Forall (fun c => unreserved c = true ∨ c = "%"%char)
        (String.list_ascii_of_string path)
    ∧ Forall (fun c => c ∉ String.list_ascii_of_string " /?#&=+")
        (String.list_ascii_of_string path).
Proof.
  exists (encodeURIComponent (underscored title_)). split; [reflexivity|].
  pose proof (encodeURIComponent_safe (underscored title_)) as Hsafe.
  rewrite forallb_forall in Hsafe.
  assert (∀ c, c ∈ String.list_ascii_of_string
                     (encodeURIComponent (underscored title_)) →
               url_safe c = true) as Hc
    by (intros c Hin; apply Hsafe, list_elem_of_In, Hin).
  split; apply Forall_forall; intros c Hin; specialize (Hc c Hin).
  - unfold url_safe in Hc. apply orb_true_iff in Hc as [Hc|Hc]; [now left|].
    right. now apply Ascii.eqb_eq in Hc.
  - intros Hbad.
    repeat (apply elem_of_cons in Hbad as [->|Hbad]; [discriminate Hc|]).
    inversion Hbad.
Qed.

Lemma unescaped_percent_encoded c :
  unescaped (hex_digit (N_of_ascii c / 16)) (hex_digit (N_of_ascii c mod 16)) = c.
Proof. destruct c as [[] [] [] [] [] [] [] []]; reflexivity. Qed.

Lemma append_cancel_l (p a b : string) : (p ++ a = p ++ b)%string → a = b.
Proof.
  induction p as [|c p IH]; cbn; [auto|]. intros H. injection H as H. auto.
Qed.

Lemma encodeURIComponent_inj s1 s2 :
  encodeURIComponent s1 = encodeURIComponent s2 → s1 = s2.
Proof.
  revert s2. induction s1 as [|c1 s1 IH]; intros [|c2 s2] H;
    cbn [encodeURIComponent] in H.
  - reflexivity.
  - exfalso. destruct (unreserved c2); cbn in H; discriminate.
  - exfalso. destruct (unreserved c1); cbn in H; discriminate.
  - destruct (unreserved c1) eqn:H1, (unreserved c2) eqn:H2; cbn in H.
    + injection H as -> H. f_equal. auto.
    + injection H as -> _. discriminate.
    + injection H as <- _. discriminate.
    + injection H as Hhi Hlo H.
      rewrite <- (unescaped_percent_encoded c1), <- (unescaped_percent_encoded c2).
      rewrite Hhi, Hlo. f_equal. auto.
Qed.

(** X21: an article URL determines the language and, up to writing a space
    as an underscore, the title: two URLs of [getWikiUrl] are the same
    exactly when the languages are and the titles, with [_] for every space,
    are. *)
Theorem wiki_url_determines_title (t1 t2 : string) (l1 l2 : Language) :
  getWikiUrl t1 l1 = getWikiUrl t2 l2
  ↔ l1 = l2 ∧ underscored t1 = underscored t2.
Proof.
  split.
  - unfold getWikiUrl. intros H.
    apply (append_cancel_l "https://") in H.
    destruct l1, l2; cbn [language_code] in H; try discriminate H.
    + apply (append_cancel_l "en.wikipedia.org/wiki/"), encodeURIComponent_inj in H.
      auto.
    + apply (append_cancel_l "fr.wikipedia.org/wiki/"), encodeURIComponent_inj in H.
      auto.
  - intros [-> H]. unfold getWikiUrl. now rewrite H.
Qed.

(** ** Summaries *)

(** X22: a summary is at most 353 code units long.  [getWikiSummary] returns
    an extract of up to 350 code units as it is and cuts a longer one after
    350, adding three full stops; a request that throws, a missing page and a
    missing extract give the empty text. *)
Theorem summary_is_cut_at_350 {unit16 : Type} (dot : unit16)
    (response : SummaryResponse) :
  length (getWikiSummary dot response) ≤ 353
  ∧ (∀ pageId page rest text,
       response = SummaryJson (Some ((pageId, page) :: rest)) →
       pageId ≠ "-1" → extract page = Some text →
       getWikiSummary dot response
       = if decide (length text ≤ 350) then text
         else take 350 text ++ [dot; dot; dot])
  ∧ (∀ page rest,
       response = SummaryJson (Some (("-1", page) :: rest)) →
       getWikiSummary dot response = []).
Proof.
  split; [|split].
  - unfold getWikiSummary.
    destruct response as [|[[|[pageId page] rest]|]]; cbn [length]; try lia.
    destruct (decide (pageId = "-1")); cbn [length]; [lia|].
    destruct (extract page) as [text|]; cbn [length]; [|lia].
    repeat case_decide; cbn [length]; try lia.
    rewrite length_app, length_take. cbn [length]. lia.
  - intros pageId page rest text -> Hid Hex. unfold getWikiSummary.
    rewrite decide_False by assumption. rewrite Hex.
    repeat case_decide; try reflexivity; try lia.
    destruct text; [reflexivity|discriminate].
  - intros page rest ->. reflexivity.
Qed.
